(** * rss_scrape.py: the PACER RSS scraper

  A shallow embedding of [src/rss_scrape.py] and the properties of its
  incremental scrape: entry extraction ([parse_entry]), the persisted
  kill switch and last-seen time ([kill_switch_set], [get_last_time],
  [set_last_time]), feed loading ([get_feed]) and the scrape loop
  ([scrape]).

  Python values are modelled as follows.  A [str] is a [string] (the
  feeds are ASCII), an [int] and the whole-second float returned by
  [time.mktime] are a [Z], a list is a [list], the [cases] dictionary is
  an association list in insertion order (the order in which Python
  iterates it).  Code that can raise returns a [result]; code that reads
  or writes the two ancillary files or calls out (feedparser, the
  notifier) runs in the monad [M], which threads the disk and records the
  calls made. *)

From Stdlib Require Import ZArith List Bool Ascii String Lia.
From Stdlib Require Import DecimalString DecimalZ.
Import ListNotations.

Local Open Scope string_scope.
Local Open Scope Z_scope.

(* ================================================================= *)
(** ** Python strings *)

Module PyStr.

Definition newline : ascii := "010"%char.
Definition dquote : ascii := "034"%char.

Definition char (a : ascii) : string := String a EmptyString.

(** [s.split(sep)] for a one-character separator: every occurrence of
    [sep] cuts, empty pieces are kept, and the result is never empty. *)
Fixpoint split (sep : ascii) (s : string) : list string :=
  match s with
  | EmptyString => [EmptyString]
  | String a r =>
      if Ascii.eqb a sep then EmptyString :: split sep r
      else match split sep r with
           | piece :: rest => String a piece :: rest
           | [] => [char a]
           end
  end.

(** [sep.join(pieces)]. *)
Definition join (sep : string) (pieces : list string) : string :=
  String.concat sep pieces.

(** [x in l] for a list (or set) of strings. *)
Definition member (x : string) (l : list string) : bool :=
  existsb (String.eqb x) l.

(** [p] is a prefix of [s]: what follows it. *)
Fixpoint strip_prefix (p s : string) : option string :=
  match p, s with
  | EmptyString, _ => Some s
  | String a p', String b s' =>
      if Ascii.eqb a b then strip_prefix p' s' else None
  | String _ _, EmptyString => None
  end.

Fixpoint all_chars (cls : ascii -> bool) (s : string) : bool :=
  match s with
  | EmptyString => true
  | String a r => cls a && all_chars cls r
  end.

Definition between (lo hi a : ascii) : bool :=
  ((nat_of_ascii lo <=? nat_of_ascii a)%nat
   && (nat_of_ascii a <=? nat_of_ascii hi)%nat)%bool.

Definition is_digit : ascii -> bool := between "0" "9".
Definition is_lower : ascii -> bool := between "a" "z".
(** The regular expression [.] without DOTALL: anything but a newline. *)
Definition not_newline (a : ascii) : bool := negb (Ascii.eqb a newline).

End PyStr.

(* ================================================================= *)
(** ** The regular expressions of [parse_entry]

  The four expressions compiled by [parse_entry] have one shape: a
  literal, one group holding a greedy repetition of a character class,
  a literal; one of them is anchored with [^].  [search] is Python's
  [re.search] followed by [group(1)] for that shape: the leftmost
  position where the expression matches, and there the longest group the
  backtracking engine accepts. *)

Module Re.
Import PyStr.

Inductive quantifier := Star | Plus.

Record pattern := {
  anchored : bool;            (* a leading ^ *)
  opening  : string;          (* literal before the group *)
  class    : ascii -> bool;   (* the class repeated inside the group *)
  quant    : quantifier;      (* its repetition: * or + *)
  closing  : string           (* literal after the group *)
}.

Definition closes (cl s : string) : bool :=
  match strip_prefix cl s with Some _ => true | None => false end.

(** The group at the head of [s]: take a character of the class and go
    on (greedy); when that fails, end the group here if the closing
    literal follows.  [need] says that one character is still owed
    (the first step of [+]). *)
Fixpoint group_greedy (cls : ascii -> bool) (cl : string) (need : bool)
         (s : string) : option string :=
  let stop := if need then None
              else if closes cl s then Some EmptyString else None in
  match s with
  | EmptyString => stop
  | String a r =>
      if cls a then
        match group_greedy cls cl false r with
        | Some g => Some (String a g)
        | None => stop
        end
      else stop
  end.

Definition owes (q : quantifier) : bool :=
  match q with Plus => true | Star => false end.

(** A match starting exactly at the head of [s]. *)
Definition match_here (p : pattern) (s : string) : option string :=
  match strip_prefix (opening p) s with
  | Some r => group_greedy (class p) (closing p) (owes (quant p)) r
  | None => None
  end.

(** Leftmost match at or after the head of [s]. *)
Fixpoint search_from (p : pattern) (s : string) : option string :=
  match match_here p s with
  | Some g => Some g
  | None =>
      match s with
      | EmptyString => None
      | String _ r => search_from p r
      end
  end.

Definition search (p : pattern) (s : string) : option string :=
  if anchored p then match_here p s else search_from p s.

End Re.

(* ================================================================= *)
(** ** Feed entries and [parse_entry] *)

(** [time.struct_time], the value feedparser stores under
  [published_parsed]. *)
Record struct_time := {
tm_year : Z; tm_mon : Z; tm_mday : Z;
tm_hour : Z; tm_min : Z; tm_sec : Z;
tm_wday : Z; tm_yday : Z; tm_isdst : Z
}.

(** A feed entry carrying the five keys the script reads. *)
Record entry := {
title : string;
link : string;
summary : string;
description : string;
published_parsed : struct_time
}.

(** The dictionary returned by [parse_entry], one field per key. *)
Record info := {
info_num : string;
info_link : string;
info_case : string;
info_court : string;
info_time : struct_time;
info_description : string
}.

Module Patterns.
Import PyStr Re.

(** A run of digits between [>] and [<]: the first pattern of
    [parse_entry], group [[0-9]+]. *)
Definition p_num : pattern :=
  {| anchored := false; opening := ">"; class := is_digit;
     quant := Plus; closing := "<" |}.

(** The text [href=] and a double quote, a group of any characters
    but newlines (greedy, possibly empty), a double quote. *)
Definition p_link : pattern :=
  {| anchored := false; opening := "href=" ++ char dquote;
     class := not_newline; quant := Star; closing := char dquote |}.

(** The text [ecf.], a group [[a-z]+], a dot. *)
Definition p_court : pattern :=
  {| anchored := false; opening := "ecf."; class := is_lower;
     quant := Plus; closing := "." |}.

(** Anchored at the start of the string: an opening square bracket, a
    non-empty group of any characters but newlines (greedy), a closing
    square bracket. *)
Definition p_description : pattern :=
  {| anchored := true; opening := "["; class := not_newline;
     quant := Plus; closing := "]" |}.

End Patterns.

Definition sentinel : string := "?".

(** [m.group(1) if m else sentinel] *)
Definition group_or_sentinel (m : option string) : string :=
match m with Some g => g | None => sentinel end.

Definition parse_entry (e : entry) : info :=
{| info_num := group_or_sentinel (Re.search Patterns.p_num (description e));
   info_link := group_or_sentinel (Re.search Patterns.p_link (description e));
   info_case := PyStr.join " " (tl (PyStr.split " " (title e)));
   info_court := group_or_sentinel (Re.search Patterns.p_court (link e));
   info_time := published_parsed e;
   info_description :=
     group_or_sentinel (Re.search Patterns.p_description (summary e)) |}.

(** The case identifier the scrape looks up: the last piece of the
  entry's link split at every question mark. *)
Definition case_id (e : entry) : string :=
last (PyStr.split "?" (link e)) EmptyString.


(* ================================================================= *)
(** ** Exceptions *)

Inductive exn :=
| Exception (msg : string)
| KeyError (key : string)
| IOError
| ValueError.

Inductive result (A : Type) :=
| Ok (a : A)
| Raise (e : exn).

Arguments Ok {A} a.
Arguments Raise {A} e.

(* ================================================================= *)
(** ** Integers as text: [str(int(t))] and [int(line)] *)

Module PyInt.
Import PyStr.

(** [str(n)] for an integer. *)
Definition str (n : Z) : string := NilZero.string_of_int (Z.to_int n).

(** White space as [int] sees it in an ASCII string: tab, line feed,
    vertical tab, form feed, carriage return and space. *)
Definition is_space (a : ascii) : bool :=
  let n := nat_of_ascii a in
  ((9 <=? n)%nat && (n <=? 13)%nat || (n =? 32)%nat)%bool.

Fixpoint lstrip (s : string) : string :=
  match s with
  | EmptyString => EmptyString
  | String a r => if is_space a then lstrip r else s
  end.

Fixpoint rstrip (s : string) : string :=
  match s with
  | EmptyString => EmptyString
  | String a r =>
      match rstrip r with
      | EmptyString => if is_space a then EmptyString else char a
      | r' => String a r'
      end
  end.

(** Digit grouping: an underscore is dropped when it stands between two
    digits and is an error anywhere else. *)
Fixpoint ungroup (after_digit : bool) (s : string) : option string :=
  match s with
  | EmptyString => Some EmptyString
  | String a r =>
      if Ascii.eqb a "_" then
        match r with
        | String b _ =>
            if after_digit && is_digit b then ungroup false r else None
        | EmptyString => None
        end
      else option_map (String a) (ungroup (is_digit a) r)
  end.

Definition unsigned_of_string (s : string) : option Z :=
  match ungroup false s with
  | Some digits => option_map Z.of_uint (NilZero.uint_of_string digits)
  | None => None
  end.

(** [int(s)] in base ten: surrounding white space is ignored, one sign
    is allowed, at least one digit is required; [None] is ValueError. *)
Definition int (s : string) : option Z :=
  match rstrip (lstrip s) with
  | String a r =>
      if Ascii.eqb a "-" then option_map Z.opp (unsigned_of_string r)
      else if Ascii.eqb a "+" then unsigned_of_string r
      else unsigned_of_string (String a r)
  | EmptyString => None
  end.

End PyInt.

(* ================================================================= *)
(** ** The ancillary files *)

(** What a path holds: nothing, something that cannot be opened (the
    IOError of [open]), or a text, as text mode delivers it. *)
Inductive file :=
| Absent
| Inaccessible
| Content (text : string).

(** The two paths of the script, KILL_SWITCH and LAST_TIME. *)
Record disk := {
  killswitch : file;
  lasttime : file
}.

(** [open(path, 'r')] *)
Definition open_r (f : file) : result string :=
  match f with
  | Content text => Ok text
  | Absent | Inaccessible => Raise IOError
  end.

(** [open(path, 'w')] followed by one [write]: the file is created or
    replaced. *)
Definition open_w (f : file) (text : string) : result file :=
  match f with
  | Inaccessible => Raise IOError
  | Absent | Content _ => Ok (Content text)
  end.

(** [f.readline()]: the first line with its newline, if it has one. *)
Fixpoint readline (text : string) : string :=
  match text with
  | EmptyString => EmptyString
  | String a r =>
      if Ascii.eqb a PyStr.newline then PyStr.char a
      else String a (readline r)
  end.

(** [try: ... except IOError: handler] *)
Definition except_IOError {A : Type} (body : result A) (handler : A)
  : result A :=
  match body with
  | Raise IOError => Ok handler
  | other => other
  end.

Definition set_kill_switch (d : disk) : result disk :=
  match open_w (killswitch d) ("script disabled" ++ PyStr.char PyStr.newline) with
  | Ok f => Ok {| killswitch := f; lasttime := lasttime d |}
  | Raise e => Raise e
  end.

Definition kill_switch_set (d : disk) : result bool :=
  except_IOError
    match open_r (killswitch d) with
    | Ok text => Ok (2 <? String.length (readline text))%nat
    | Raise e => Raise e
    end
    false.

Definition get_last_time (d : disk) : result Z :=
  except_IOError
    match open_r (lasttime d) with
    | Ok text =>
        match PyInt.int (readline text) with
        | Some n => Ok n
        | None => Raise ValueError
        end
    | Raise e => Raise e
    end
    0.

Definition set_last_time (t : Z) (d : disk) : result disk :=
  match open_w (lasttime d) (PyInt.str t ++ PyStr.char PyStr.newline) with
  | Ok f => Ok {| killswitch := killswitch d; lasttime := f |}
  | Raise e => Raise e
  end.

(* ================================================================= *)
(** ** Feeds and the calls a run makes *)

(** The result of [feedparser.parse]: the keys the script reads.  The
    status key is missing when no response was received. *)
Record feed := {
  status : option Z;
  href : string;
  entries : list entry
}.

(** The calls of a run that reach outside [scrape], in the order made. *)
Inductive event :=
| Fetch (url : string)          (* feedparser.parse(url) *)
| ReadLastTime                  (* get_last_time() *)
| Notify (e : entry)            (* notifier(entry) *)
| WriteLastTime (t : Z).        (* set_last_time(t) *)

(** A computation on the disk that may raise and records its calls. *)
Definition M (A : Type) : Type := disk -> result A * disk * list event.

Definition ret {A : Type} (a : A) : M A := fun d => (Ok a, d, []).

Definition raise {A : Type} (e : exn) : M A := fun d => (Raise e, d, []).

Definition bind {A B : Type} (m : M A) (k : A -> M B) : M B :=
  fun d =>
    match m d with
    | (Ok a, d1, evs1) =>
        match k a d1 with
        | (r, d2, evs2) => (r, d2, (evs1 ++ evs2)%list)
        end
    | (Raise e, d1, evs1) => (Raise e, d1, evs1)
    end.

Definition emit (ev : event) : M unit := fun d => (Ok tt, d, [ev]).

Declare Scope scrape_scope.
Delimit Scope scrape_scope with scrape.
Notation "x <- m ;; k" := (bind m (fun x => k))
  (at level 61, m at next level, right associativity) : scrape_scope.
Notation "m ;; k" := (bind m (fun _ => k))
  (at level 61, right associativity) : scrape_scope.
Local Open Scope scrape_scope.

(** The three components of what a computation leaves behind. *)
Definition outcome {A : Type} (x : result A * disk * list event) : result A :=
  fst (fst x).
Definition disk_after {A : Type} (x : result A * disk * list event) : disk :=
  snd (fst x).
Definition calls {A : Type} (x : result A * disk * list event) : list event :=
  snd x.

(** Entries handed to the notifier, times written, feeds fetched. *)
Definition notified (evs : list event) : list entry :=
  flat_map (fun ev => match ev with Notify e => [e] | _ => [] end) evs.
Definition written (evs : list event) : list Z :=
  flat_map (fun ev => match ev with WriteLastTime t => [t] | _ => [] end) evs.
Definition fetched (evs : list event) : list string :=
  flat_map (fun ev => match ev with Fetch u => [u] | _ => [] end) evs.

(** [cases[court]] on the dictionary of watched cases. *)
Fixpoint dict_get {V : Type} (d : list (string * V)) (k : string) : option V :=
  match d with
  | [] => None
  | (k', v) :: rest => if String.eqb k k' then Some v else dict_get rest k
  end.

Definition keys {V : Type} (d : list (string * V)) : list string :=
  map fst d.

Definition feed_url (court : string) : string :=
  "https://ecf." ++ court ++ ".uscourts.gov/cgi-bin/rss_outside.pl".

Definition fetch_failure (f : feed) (code : Z) : exn :=
  Exception ("Getting PACER RSS feed " ++ href f ++ " failed with code "
             ++ PyInt.str code ++ ".").

Section Scrape.

(** [time.mktime] on the published time of an entry, in whole seconds;
    [feedparser.parse], the feed a URL delivers during the run. *)
Variable mktime : struct_time -> Z.
Variable feedparser_parse : string -> feed.

Definition published (e : entry) : Z := mktime (published_parsed e).

Definition get_feed (url : string) : M feed :=
  emit (Fetch url) ;;
  let feed := feedparser_parse url in
  match status feed with
  | None => raise (KeyError "status")
  | Some code =>
      if code =? 200 then ret feed
      else raise (fetch_failure feed code)
  end.

(** The dictionary comprehension that loads one feed per court. *)
Fixpoint load_feeds (courts : list string) : M (list (string * feed)) :=
  match courts with
  | [] => ret []
  | court :: rest =>
      feed <- get_feed (feed_url court) ;;
      feeds <- load_feeds rest ;;
      ret ((court, feed) :: feeds)
  end.

Definition read_last_time : M Z :=
  emit ReadLastTime ;;
  fun d => (get_last_time d, d, []).

Definition write_last_time (t : Z) : M unit :=
  emit (WriteLastTime t) ;;
  fun d =>
    match set_last_time t d with
    | Ok d' => (Ok tt, d', [])
    | Raise e => (Raise e, d, [])
    end.

(** The notifier made by [make_notifier] catches what its channels
    raise, so a call returns; the call is recorded. *)
Definition notifier (e : entry) : M unit := emit (Notify e).

(** The inner loop over the entries of one feed. *)
Fixpoint scan_entries (last_seen : Z) (watched : list string)
         (es : list entry) : M unit :=
  match es with
  | [] => ret tt
  | e :: rest =>
      if published e <=? last_seen then ret tt     (* break *)
      else
        (if PyStr.member (case_id e) watched then
           notifier e ;;
           write_last_time (published e)
         else ret tt) ;;
        scan_entries last_seen watched rest
  end.

(** The outer loop over the loaded feeds. *)
Fixpoint scan_courts (cases : list (string * list string)) (last_seen : Z)
         (feeds : list (string * feed)) : M unit :=
  match feeds with
  | [] => ret tt
  | (court, feed) :: rest =>
      match dict_get cases court with
      | None => raise (KeyError court)
      | Some watched =>
          scan_entries last_seen watched (entries feed) ;;
          scan_courts cases last_seen rest
      end
  end.

Definition scrape (cases : list (string * list string)) : M unit :=
  pacer_feeds <- load_feeds (keys cases) ;;
  last_seen <- read_last_time ;;
  scan_courts cases last_seen pacer_feeds.

End Scrape.

(* ================================================================= *)
(** ** Runs in sequence *)



(* ================================================================= *)
(** ** Sample data *)

(** [time.mktime] where the local time zone is UTC (days from the civil
    date, then seconds). *)
Definition utc_mktime (t : struct_time) : Z :=
  let y := if tm_mon t <=? 2 then tm_year t - 1 else tm_year t in
  let era := y / 400 in
  let yoe := y - era * 400 in
  let mp := if tm_mon t <=? 2 then tm_mon t + 9 else tm_mon t - 3 in
  let doy := (153 * mp + 2) / 5 + tm_mday t - 1 in
  let doe := yoe * 365 + yoe / 4 - yoe / 100 + doy in
  let days := era * 146097 + doe - 719468 in
  days * 86400 + tm_hour t * 3600 + tm_min t * 60 + tm_sec t.

(** The first of January 1970, [n] seconds after midnight UTC. *)
Definition at_second (n : Z) : struct_time :=
  {| tm_year := 1970; tm_mon := 1; tm_mday := 1;
     tm_hour := n / 3600; tm_min := (n mod 3600) / 60; tm_sec := n mod 60;
     tm_wday := 3; tm_yday := 1; tm_isdst := 0 |}.

Definition anchor (url number : string) : string :=
  "<a href=" ++ PyStr.char PyStr.dquote ++ url ++ PyStr.char PyStr.dquote
  ++ ">" ++ number ++ "</a>".

(** A docket entry of the Northern District of Illinois for case
    [case_number], published [n] seconds into 1970. *)
Definition ilnd_entry (case_number : string) (n : Z) : entry :=
  {| title := "13-cv-50286 Malibu Media v. Doe";
     link := "https://ecf.ilnd.uscourts.gov/cgi-bin/DktRpt.pl?" ++ case_number;
     summary := "[Order on Motion] ("
                ++ anchor "https://ecf.ilnd.uscourts.gov/doc1/06711" "12"
                ++ ")";
     description := "[Order on Motion] ("
                ++ anchor "https://ecf.ilnd.uscourts.gov/doc1/06711" "12"
                ++ ")";
     published_parsed := at_second n |}.

Definition ilnd_watch : list (string * list string) :=
  [("ilnd", ["280638"])].

(** A world in which every court answers with the given entries. *)
Definition serving (es : list entry) (url : string) : feed :=
  {| status := Some 200; href := url; entries := es |}.

(** A world in which every court answers with the given status. *)
Definition answering (code : Z) (url : string) : feed :=
  {| status := Some code; href := url; entries := [] |}.

Definition empty_disk : disk := {| killswitch := Absent; lasttime := Absent |}.

(** Two filings in a watched case, newest first. *)
Definition two_filings : list entry :=
  [ilnd_entry "280638" 2000; ilnd_entry "280638" 1000].

(* ================================================================= *)
(** ** What the properties are stated with *)


(** The pattern matches at the head of [s] with group [g]. *)
Definition matches_at (p : Re.pattern) (s g : string) : Prop :=
  PyStr.all_chars (Re.class p) g = true
  /\ (Re.quant p = Re.Plus -> g <> EmptyString)
  /\ exists post, s = Re.opening p ++ g ++ Re.closing p ++ post.





(** The entries of a feed that the inner loop reaches: those before the
    first one published at or before [last_seen]. *)
Fixpoint reached (mktime : struct_time -> Z) (last_seen : Z)
         (es : list entry) : list entry :=
  match es with
  | [] => []
  | e :: rest =>
      if last_seen <? published mktime e
      then e :: reached mktime last_seen rest
      else []
  end.

(** The match rule on one court: each reached entry whose case
    identifier is watched is notified, and its time written. *)
Definition court_calls (mktime : struct_time -> Z) (last_seen : Z)
           (watched : list string) (es : list entry) : list event :=
  flat_map
    (fun e =>
       if PyStr.member (case_id e) watched
       then [Notify e; WriteLastTime (published mktime e)]
       else [])
    (reached mktime last_seen es).

(** Every feed of the watched courts was delivered with status 200. *)
Definition feed_ok (f : feed) : Prop := status f = Some 200.

(** Each write stores at least what was stored before it. *)
Fixpoint nondecreasing_from (w : Z) (ts : list Z) : Prop :=
  match ts with
  | [] => True
  | t :: rest => w <= t /\ nondecreasing_from t rest
  end.



(** The characters of a written integer. *)
Definition sign_or_digit (a : ascii) : bool :=
  (PyStr.is_digit a || Ascii.eqb a "-")%bool.

(** The disk after the given calls of [set_last_time], made in order; a
    call that raises leaves the disk as it was. *)
Definition store_writes (ts : list Z) (d : disk) : disk :=
  fold_left
    (fun d t => match set_last_time t d with Ok d' => d' | Raise _ => d end)
    ts d.

(** The cases watched for a court, none when the court is not listed. *)
Definition watched_for (cases : list (string * list string)) (court : string)
  : list string :=
  match dict_get cases court with Some w => w | None => [] end.

(** The match rule on all loaded feeds, court after court. *)
Definition scan_calls (mktime : struct_time -> Z)
           (cases : list (string * list string)) (last_seen : Z)
           (feeds : list (string * feed)) : list event :=
  flat_map
    (fun cf => court_calls mktime last_seen (watched_for cases (fst cf))
                           (entries (snd cf)))
    feeds.

(** The feeds a run loads when every fetch succeeds. *)
Definition loaded (feedparser_parse : string -> feed) (courts : list string)
  : list (string * feed) :=
  map (fun court => (court, feedparser_parse (feed_url court))) courts.

Definition fetches (courts : list string) : list event :=
  map (fun court => Fetch (feed_url court)) courts.

(** What [get_feed] raises on a feed that is not a success. *)
Definition get_feed_error (f : feed) : exn :=
  match status f with
  | None => KeyError "status"
  | Some code => fetch_failure f code
  end.

(** The entries of one court that the match rule selects: reached, and
    with a watched case identifier. *)
Definition matches_of (mktime : struct_time -> Z)
           (feedparser_parse : string -> feed) (last_seen : Z)
           (cw : string * list string) : list entry :=
  filter (fun e => PyStr.member (case_id e) (snd cw))
         (reached mktime last_seen
                  (entries (feedparser_parse (feed_url (fst cw))))).

(** The scenario of the specification: one filing in a watched case. *)
Definition one_filing : list entry := [ilnd_entry "280638" 1000].

(** The first run on [two_filings] from an empty disk, and the run that
    follows it on the same feed. *)
Definition first_run : result unit * disk * list event :=
  scrape utc_mktime (serving two_filings) ilnd_watch empty_disk.

Definition next_run : result unit * disk * list event :=
  scrape utc_mktime (serving two_filings) ilnd_watch (disk_after first_run).

(** No character of [s] is [sep]. *)
Definition free_of (sep : ascii) (s : string) : Prop :=
  PyStr.all_chars (fun a => negb (Ascii.eqb a sep)) s = true.

(* ================================================================= *)
(** ** The tweet of [send_tweet] *)

(** The first [n] characters of [s]. *)
Fixpoint take (n : nat) (s : string) : string :=
  match n, s with
  | O, _ => EmptyString
  | S _, EmptyString => EmptyString
  | S n', String a r => String a (take n' r)
  end.

(** The slice [s[:stop]]: a negative [stop] counts from the end. *)
Definition slice_to (s : string) (stop : Z) : string :=
  if stop <? 0
  then take (String.length s - Z.to_nat (- stop)) s
  else take (Z.to_nat stop) s.

(** The helper [truncate] of [send_tweet]. *)
Definition truncate (s : string) (num : Z) : string :=
  if num <? Z.of_nat (String.length s)
  then slice_to s (num - 3) ++ "..."
  else s.

(** The status text that [send_tweet] posts. *)
Definition tweet_text (e : entry) : string :=
  let info := parse_entry e in
  "New #PACER doc in " ++ truncate (info_case info) 35
  ++ " (" ++ info_court info ++ "): #" ++ info_num info
  ++ " " ++ truncate (info_description info) 45
  ++ ". " ++ info_link info.

(* ================================================================= *)
(** ** [make_notifier] *)

(** What a call of the notifier does that can be observed: the two
    channels it calls, with the credentials it passes, and the
    tracebacks it prints.  A credential is [None] when the command line
    did not give it. *)
Inductive report :=
| CallSendEmail (e : entry) (account pass to : option string)
| CallSendTweet (e : entry) (token secret key key_secret : option string)
| PrintTraceback (x : exn).

(** [creds[key]] *)
Definition creds_get (creds : list (string * option string)) (key : string)
  : result (option string) :=
  match dict_get creds key with
  | Some v => Ok v
  | None => Raise (KeyError key)
  end.

Section Notifier.

(** The outcome of [send_email] and of [send_tweet] on given arguments:
    what the mail server and the Twitter API answer. *)
Variable send_email :
  entry -> option string -> option string -> option string -> result unit.
Variable send_tweet :
  entry -> option string -> option string -> option string -> option string
  -> result unit.

(** The body of the first [try]: the arguments are evaluated left to
    right, then [send_email] is called. *)
Definition try_email (creds : list (string * option string)) (e : entry)
  : result unit * list report :=
  match creds_get creds "email_account" with
  | Raise x => (Raise x, [])
  | Ok account =>
      match creds_get creds "email_pass" with
      | Raise x => (Raise x, [])
      | Ok pass =>
          match creds_get creds "email_to" with
          | Raise x => (Raise x, [])
          | Ok to =>
              (send_email e account pass to,
               [CallSendEmail e account pass to])
          end
      end
  end.

(** The body of the second [try]. *)
Definition try_tweet (creds : list (string * option string)) (e : entry)
  : result unit * list report :=
  match creds_get creds "oauth_token" with
  | Raise x => (Raise x, [])
  | Ok token =>
      match creds_get creds "oauth_secret" with
      | Raise x => (Raise x, [])
      | Ok secret =>
          match creds_get creds "consumer_key" with
          | Raise x => (Raise x, [])
          | Ok key =>
              match creds_get creds "consumer_secret" with
              | Raise x => (Raise x, [])
              | Ok key_secret =>
                  (send_tweet e token secret key key_secret,
                   [CallSendTweet e token secret key key_secret])
              end
          end
      end
  end.

(** [try: body except Exception: traceback.print_exc()]; every exception
    of the model is an Exception. *)
Definition except_Exception (body : result unit * list report)
  : result unit * list report :=
  match body with
  | (Ok _, reports) => (Ok tt, reports)
  | (Raise x, reports) => (Ok tt, (reports ++ [PrintTraceback x])%list)
  end.

(** The function [notify] that [make_notifier] returns. *)
Definition make_notifier (creds : list (string * option string))
           (email twitter : bool) (e : entry) : result unit * list report :=
  let first :=
    if email then except_Exception (try_email creds e) else (Ok tt, []) in
  match first with
  | (Raise x, reports) => (Raise x, reports)
  | (Ok _, reports) =>
      let second :=
        if twitter then except_Exception (try_tweet creds e)
        else (Ok tt, []) in
      (fst second, (reports ++ snd second)%list)
  end.

End Notifier.

(** The credentials dictionary that the script builds from its command
    line: the seven keys, each with the value of its option. *)
Definition main_creds (e_from e_pass e_to token secret key key_secret
                       : option string) : list (string * option string) :=
  [("email_account", e_from); ("email_pass", e_pass); ("email_to", e_to);
   ("oauth_token", token); ("oauth_secret", secret);
   ("consumer_key", key); ("consumer_secret", key_secret)].

(* ================================================================= *)
(** ** The script *)

(** The dictionary [cases] of the script. *)
Definition main_cases : list (string * list string) :=
  [("cacd", ["543744"]);
   ("cand", ["254869"; "254879"]);
   ("ctd", ["98605"]);
   ("ilnd", ["280638"; "284511"; "287443"; "287310"]);
   ("flmd", ["276288"])].

(** The body run under [__main__]: leave at once when the kill switch is
    set ([sys.exit()] with no argument ends the process cleanly), else
    scrape the cases of the script. *)
Definition main (mktime : struct_time -> Z)
           (feedparser_parse : string -> feed) : M unit :=
  fun d =>
    match kill_switch_set d with
    | Ok true => (Ok tt, d, [])
    | Ok false => scrape mktime feedparser_parse main_cases d
    | Raise x => (Raise x, d, [])
    end.

(** The feed is newest first: no entry is published after one that
    stands before it. *)
Fixpoint newest_first (mktime : struct_time -> Z) (es : list entry) : Prop :=
  match es with
  | [] => True
  | e :: rest =>
      (forall x, In x rest -> published mktime x <= published mktime e)
      /\ newest_first mktime rest
  end.

(** A description whose anchor carries a second attribute. *)
Definition two_attributes : string :=
  "<a href=" ++ PyStr.char PyStr.dquote ++ "https://ecf.ilnd.uscourts.gov/doc1/06711"
  ++ PyStr.char PyStr.dquote ++ " target=" ++ PyStr.char PyStr.dquote
  ++ "_blank" ++ PyStr.char PyStr.dquote ++ ">12</a>".

(** A mail server and a Twitter API that refuse everything. *)
Definition refusing_email (e : entry) (account pass to : option string)
  : result unit := Raise IOError.
Definition refusing_tweet (e : entry) (token secret key key_secret
                                       : option string)
  : result unit := Raise (Exception "Twitter sent status 401").
Definition accepting_tweet (e : entry) (token secret key key_secret
                                        : option string)
  : result unit := Ok tt.

(** A world in which no court answers at all: the feeds carry no
    status. *)
Definition silent (url : string) : feed :=
  {| status := None; href := url; entries := [] |}.

(** Two courts watched, one of them with an empty list. *)
Definition two_courts : list (string * list string) :=
  [("ilnd", ["280638"]); ("cacd", [])].

(** Courts watched with empty lists only. *)
Definition nothing_watched : list (string * list string) :=
  [("ilnd", []); ("cacd", [])].

(** A disk whose last-seen file does not hold a number. *)
Definition damaged_disk : disk :=
  {| killswitch := Absent; lasttime := Content "yesterday" |}.

(** The entries of a feed published after [last_seen] whose case is
    watched. *)
Definition fresh_and_watched (mktime : struct_time -> Z)
           (feedparser_parse : string -> feed) (last_seen : Z)
           (cw : string * list string) : list entry :=
  filter (fun e => (last_seen <? published mktime e)
                   && PyStr.member (case_id e) (snd cw))
         (entries (feedparser_parse (feed_url (fst cw)))).

(** [segment] is the final segment of [text]: it holds no question
    mark, and it is the whole text or what follows a question mark of
    the text. *)
Definition last_segment (text segment : string) : Prop :=
  free_of "?" segment
  /\ (text = segment \/ exists pre, text = pre ++ String "?" segment).

(** A feed that is not newest first: a filing of time 3000 stands
    behind one of time 500. *)
Definition unsorted_filings : list entry :=
  [ilnd_entry "280638" 500; ilnd_entry "280638" 3000].

(** A disk whose last-seen time is 1000. *)
Definition disk_at_1000 : disk :=
  {| killswitch := Absent;
     lasttime := Content (PyInt.str 1000 ++ PyStr.char PyStr.newline) |}.

(* ================================================================= *)
(** * Properties *)

(* ================================================================= *)
(** ** Strings *)


Lemma append_empty_r (a : string) : a ++ EmptyString = a.
Proof. induction a as [|x a IH]; simpl; [reflexivity | now rewrite IH]. Qed.

Lemma length_append (a b : string) :
  String.length (a ++ b) = (String.length a + String.length b)%nat.
Proof. induction a as [|x a IH]; simpl; [reflexivity | now rewrite IH]. Qed.

Lemma strip_prefix_append (p r : string) : PyStr.strip_prefix p (p ++ r) = Some r.
Proof.
  induction p as [|x p IH]; simpl; [reflexivity|].
  now rewrite Ascii.eqb_refl.
Qed.

Lemma strip_prefix_inv (p s r : string) :
  PyStr.strip_prefix p s = Some r -> s = p ++ r.
Proof.
  revert s; induction p as [|x p IH]; intros s; simpl.
  - now intros [= ->].
  - destruct s as [|y s]; [discriminate|].
    destruct (Ascii.eqb_spec x y) as [->|]; [|discriminate].
    intros H; simpl; f_equal; now apply IH.
Qed.

Lemma closes_append (cl post : string) : Re.closes cl (cl ++ post) = true.
Proof. unfold Re.closes; now rewrite strip_prefix_append. Qed.

Lemma closes_inv (cl s : string) :
  Re.closes cl s = true -> exists post, s = cl ++ post.
Proof.
  unfold Re.closes; destruct (PyStr.strip_prefix cl s) as [r|] eqn:E;
    [|discriminate].
  intros _; exists r; now apply strip_prefix_inv.
Qed.

(** The pieces of a split: the first one holds no separator, and the
    last one is what follows the last separator of the string. *)
Lemma split_pieces (sep : ascii) (s : string) :
  exists piece rest,
    PyStr.split sep s = piece :: rest
    /\ free_of sep piece
    /\ ((rest = [] /\ s = piece)
        \/ (rest <> []
            /\ free_of sep (last rest EmptyString)
            /\ exists pre, s = pre ++ String sep (last rest EmptyString))).
Proof.
  induction s as [|a r (p & rs & Hsplit & Hp & IH)]; simpl.
  - exists EmptyString, []; repeat split; now left.
  - rewrite Hsplit; destruct (Ascii.eqb_spec a sep) as [->|Hne].
    + exists EmptyString, (p :: rs); repeat split.
      right; split; [discriminate|].
      destruct IH as [[-> ->]|(Hrs & Hlast & pre & ->)].
      * split; [exact Hp|now exists EmptyString].
      * destruct rs as [|q rs]; [congruence|].
        split; [exact Hlast|now exists (String sep pre)].
    + exists (String a p), rs; split; [reflexivity|].
      split.
      * unfold free_of in *; simpl; rewrite Hp.
        now apply Ascii.eqb_neq in Hne as ->.
      * destruct IH as [[-> ->]|(Hrs & Hlast & pre & ->)]; [now left|].
        right; repeat split; try assumption. now exists (String a pre).
Qed.

(** The case identifier is the final segment of the link: it holds no
    question mark, and it is the whole link or what follows its last
    question mark. *)
Lemma case_id_is_last_segment (e : entry) :
  free_of "?" (case_id e)
  /\ (link e = case_id e
      \/ exists pre, link e = pre ++ String "?" (case_id e)).
Proof.
  unfold case_id.
  destruct (split_pieces "?" (link e)) as (p & rs & -> & Hp & H).
  destruct H as [[-> ->]|(Hrs & Hlast & pre & ->)].
  - split; [exact Hp|now left].
  - destruct rs as [|q rs]; [congruence|].
    split; [exact Hlast|right; now exists pre].
Qed.

(* ================================================================= *)
(** ** The search *)

Section Search.

Variable cls : ascii -> bool.
Variable cl : string.

Lemma group_greedy_sound (s : string) :
  forall need g,
    Re.group_greedy cls cl need s = Some g ->
    PyStr.all_chars cls g = true
    /\ (need = true -> g <> EmptyString)
    /\ exists post, s = g ++ cl ++ post.
Proof.
  assert (Hstop : forall (need : bool) t g,
             (if need then @None string
              else if Re.closes cl t then Some EmptyString else None) = Some g ->
             PyStr.all_chars cls g = true
             /\ (need = true -> g <> EmptyString)
             /\ exists post, t = g ++ cl ++ post).
  { intros [|] t g; [discriminate|].
    destruct (Re.closes cl t) eqn:E; [|discriminate].
    intros [= <-]; repeat split; [discriminate|].
    now apply closes_inv. }
  induction s as [|a r IH]; intros need g; simpl.
  - apply Hstop.
  - destruct (cls a) eqn:Ha; [|apply Hstop].
    destruct (Re.group_greedy cls cl false r) as [g'|] eqn:E; [|apply Hstop].
    intros [= <-].
    destruct (IH _ _ E) as (Hall & _ & post & ->).
    simpl; rewrite Ha, Hall; repeat split; [discriminate|].
    now exists post.
Qed.

Lemma group_greedy_complete (g : string) :
  forall need post,
    PyStr.all_chars cls g = true ->
    (need = true -> g <> EmptyString) ->
    exists g', Re.group_greedy cls cl need (g ++ cl ++ post) = Some g'
               /\ (String.length g <= String.length g')%nat.
Proof.
  induction g as [|a g IH]; intros need post Hall Hneed.
  - destruct need; [now exfalso; apply Hneed|].
    simpl append.
    pose proof (closes_append cl post) as Hc.
    destruct (cl ++ post) as [|b r]; simpl.
    + rewrite Hc; exists EmptyString; split; [reflexivity|lia].
    + destruct (cls b); [destruct (Re.group_greedy cls cl false r) as [g'|]|].
      * exists (String b g'); split; [reflexivity|simpl; lia].
      * rewrite Hc; exists EmptyString; split; [reflexivity|lia].
      * rewrite Hc; exists EmptyString; split; [reflexivity|lia].
  - simpl in Hall; apply andb_true_iff in Hall as [Ha Hall].
    simpl; rewrite Ha.
    destruct (IH false post Hall) as (g' & -> & Hlen); [discriminate|].
    exists (String a g'); split; [reflexivity|simpl; lia].
Qed.


End Search.

Lemma match_here_sound (p : Re.pattern) (s g : string) :
  Re.match_here p s = Some g -> matches_at p s g.
Proof.
  unfold Re.match_here, matches_at.
  destruct (PyStr.strip_prefix (Re.opening p) s) as [r|] eqn:E; [|discriminate].
  intros H; apply group_greedy_sound in H as (Hall & Hneed & post & ->).
  apply strip_prefix_inv in E as ->.
  repeat split; [assumption| |now exists post].
  intros Hq; apply Hneed; now rewrite Hq.
Qed.

Lemma match_here_complete (p : Re.pattern) (s g : string) :
  matches_at p s g ->
  exists g', Re.match_here p s = Some g'
             /\ (String.length g <= String.length g')%nat.
Proof.
  intros (Hall & Hneed & post & ->); unfold Re.match_here.
  rewrite strip_prefix_append.
  apply group_greedy_complete; [assumption|].
  destruct (Re.quant p); [discriminate|intros _; now apply Hneed].
Qed.












(* ================================================================= *)
(** ** Extraction *)



Example parse_entry_sample :
  parse_entry (ilnd_entry "287443" 1000)
  = {| info_num := "12";
       info_link := "https://ecf.ilnd.uscourts.gov/doc1/06711";
       info_case := "Malibu Media v. Doe";
       info_court := "ilnd";
       info_time := at_second 1000;
       info_description := "Order on Motion" |}.
Proof. reflexivity. Qed.





(* ================================================================= *)
(** ** The last-seen time on disk *)

Lemma digit_facts (a : ascii) :
  PyStr.is_digit a = true ->
  PyInt.is_space a = false
  /\ Ascii.eqb a "_" = false
  /\ Ascii.eqb a "-" = false
  /\ Ascii.eqb a "+" = false
  /\ Ascii.eqb a PyStr.newline = false.
Proof.
  destruct a as [[] [] [] [] [] [] [] []]; vm_compute; intros H;
    try discriminate H; repeat split.
Qed.

Lemma digits_of_uint (d : Decimal.uint) :
  PyStr.all_chars PyStr.is_digit (NilZero.string_of_uint d) = true
  /\ NilZero.string_of_uint d <> EmptyString.
Proof.
  assert (H : forall u, PyStr.all_chars PyStr.is_digit
                          (NilEmpty.string_of_uint u) = true)
    by (induction u; simpl; auto).
  destruct d; simpl; (split; [|discriminate]); try reflexivity;
    match goal with |- context [NilEmpty.string_of_uint ?u] => apply (H u) end.
Qed.

Lemma value_of_uint (d : Decimal.uint) :
  option_map Z.of_uint (NilZero.uint_of_string (NilZero.string_of_uint d))
  = Some (Z.of_uint d).
Proof.
  destruct d; try reflexivity; rewrite NilZero.usu; try discriminate;
    reflexivity.
Qed.

Lemma ungroup_digits (s : string) :
  PyStr.all_chars PyStr.is_digit s = true ->
  forall b, PyInt.ungroup b s = Some s.
Proof.
  induction s as [|a r IH]; simpl; intros H b; [reflexivity|].
  apply andb_true_iff in H as [Ha Hr].
  destruct (digit_facts a Ha) as (_ & -> & _).
  now rewrite IH.
Qed.

Lemma lstrip_digits (s : string) :
  PyStr.all_chars sign_or_digit s = true -> PyInt.lstrip s = s.
Proof.
  destruct s as [|a r]; simpl; [reflexivity|].
  intros H; apply andb_true_iff in H as [Ha _].
  unfold sign_or_digit in Ha; apply orb_true_iff in Ha as [Ha|Ha].
  - now destruct (digit_facts a Ha) as (-> & _).
  - apply Ascii.eqb_eq in Ha as ->; reflexivity.
Qed.

Lemma rstrip_line (s : string) :
  PyStr.all_chars sign_or_digit s = true ->
  PyInt.rstrip (s ++ PyStr.char PyStr.newline) = s.
Proof.
  induction s as [|a r IH]; simpl; intros H; [reflexivity|].
  apply andb_true_iff in H as [Ha Hr].
  rewrite (IH Hr).
  assert (Hs : PyInt.is_space a = false).
  { unfold sign_or_digit in Ha; apply orb_true_iff in Ha as [Ha|Ha].
    - now destruct (digit_facts a Ha).
    - apply Ascii.eqb_eq in Ha as ->; reflexivity. }
  destruct r; [now rewrite Hs|reflexivity].
Qed.

Lemma readline_line (s : string) :
  PyStr.all_chars sign_or_digit s = true ->
  readline (s ++ PyStr.char PyStr.newline) = s ++ PyStr.char PyStr.newline.
Proof.
  induction s as [|a r IH]; simpl; intros H; [reflexivity|].
  apply andb_true_iff in H as [Ha Hr].
  assert (Hn : Ascii.eqb a PyStr.newline = false).
  { unfold sign_or_digit in Ha; apply orb_true_iff in Ha as [Ha|Ha].
    - now destruct (digit_facts a Ha) as (_ & _ & _ & _ & ->).
    - apply Ascii.eqb_eq in Ha as ->; reflexivity. }
  now rewrite Hn, IH.
Qed.

Lemma digits_are_sign_or_digit (s : string) :
  PyStr.all_chars PyStr.is_digit s = true ->
  PyStr.all_chars sign_or_digit s = true.
Proof.
  induction s as [|a r IH]; simpl; [reflexivity|].
  intros H; apply andb_true_iff in H as [Ha Hr].
  unfold sign_or_digit at 1; now rewrite Ha, IH.
Qed.

Lemma str_chars (n : Z) : PyStr.all_chars sign_or_digit (PyInt.str n) = true.
Proof.
  unfold PyInt.str; destruct (Z.to_int n) as [d|d]; simpl.
  - apply digits_are_sign_or_digit, digits_of_uint.
  - apply digits_are_sign_or_digit, digits_of_uint.
Qed.

Lemma str_head (n : Z) :
  exists a r, PyInt.str n = String a r /\ PyInt.is_space a = false.
Proof.
  pose proof (str_chars n) as H.
  assert (Hne : PyInt.str n <> EmptyString).
  { unfold PyInt.str; destruct (Z.to_int n) as [d|d]; simpl;
      [apply digits_of_uint|discriminate]. }
  destruct (PyInt.str n) as [|a r]; [congruence|].
  exists a, r; split; [reflexivity|].
  simpl in H; apply andb_true_iff in H as [Ha _].
  unfold sign_or_digit in Ha; apply orb_true_iff in Ha as [Ha|Ha].
  - now destruct (digit_facts a Ha).
  - apply Ascii.eqb_eq in Ha as ->; reflexivity.
Qed.

(** What [set_last_time] writes is read back by [int]. *)
Lemma int_of_written_line (n : Z) :
  PyInt.int (PyInt.str n ++ PyStr.char PyStr.newline) = Some n.
Proof.
  unfold PyInt.int.
  assert (Hl : PyInt.lstrip (PyInt.str n ++ PyStr.char PyStr.newline)
               = PyInt.str n ++ PyStr.char PyStr.newline).
  { destruct (str_head n) as (a & r & -> & Ha); simpl; now rewrite Ha. }
  rewrite Hl, rstrip_line by apply str_chars.
  rewrite <- (DecimalZ.of_to n) at 2.
  unfold PyInt.str.
  destruct (Z.to_int n) as [d|d]; simpl NilZero.string_of_int.
  - destruct (digits_of_uint d) as [Hd Hne].
    destruct (NilZero.string_of_uint d) as [|a r] eqn:E; [congruence|].
    simpl in Hd; apply andb_true_iff in Hd as [Ha Hr].
    destruct (digit_facts a Ha) as (_ & _ & -> & -> & _).
    unfold PyInt.unsigned_of_string.
    rewrite ungroup_digits by (simpl; now rewrite Ha, Hr).
    rewrite <- E. apply value_of_uint.
  - destruct (digits_of_uint d) as [Hd Hne].
    change (option_map Z.opp
              (PyInt.unsigned_of_string (NilZero.string_of_uint d))
            = Some (Z.of_int (Decimal.Neg d))).
    unfold PyInt.unsigned_of_string.
    rewrite ungroup_digits by assumption.
    rewrite value_of_uint. reflexivity.
Qed.

Lemma get_last_time_after_set (t : Z) (d d' : disk) :
  set_last_time t d = Ok d' -> get_last_time d' = Ok t.
Proof.
  unfold set_last_time, get_last_time.
  destruct (lasttime d); simpl; try discriminate; intros [= <-]; simpl;
    now rewrite readline_line, int_of_written_line by apply str_chars.
Qed.

Lemma set_last_time_fails (t : Z) (d : disk) (e : exn) :
  set_last_time t d = Raise e -> lasttime d = Inaccessible /\ e = IOError.
Proof.
  unfold set_last_time; destruct (lasttime d); simpl; try discriminate.
  now intros [= <-].
Qed.

Lemma set_last_time_killswitch (t : Z) (d d' : disk) :
  set_last_time t d = Ok d' -> killswitch d' = killswitch d.
Proof.
  unfold set_last_time; destruct (open_w _ _); [|discriminate].
  now intros [= <-].
Qed.

(** C9 (persistence absence is not an error).  When the file of the
    last-seen time is missing or cannot be opened, [get_last_time]
    returns 0; when the kill-switch file is missing or cannot be opened,
    [kill_switch_set] returns false; neither raises. *)
Theorem absent_files_are_never_set (d : disk) :
  (lasttime d = Absent \/ lasttime d = Inaccessible ->
   get_last_time d = Ok 0)
  /\ (killswitch d = Absent \/ killswitch d = Inaccessible ->
      kill_switch_set d = Ok false).
Proof.
  unfold get_last_time, kill_switch_set.
  split; intros [H|H]; rewrite H; reflexivity.
Qed.

Lemma absent_files_are_never_set_witness :
  get_last_time empty_disk = Ok 0
  /\ kill_switch_set empty_disk = Ok false
  /\ get_last_time {| killswitch := Inaccessible; lasttime := Inaccessible |}
     = Ok 0
  /\ kill_switch_set {| killswitch := Inaccessible; lasttime := Inaccessible |}
     = Ok false.
Proof.
  split; [apply (proj1 (absent_files_are_never_set empty_disk)); left;
          reflexivity|].
  split; [apply (proj2 (absent_files_are_never_set empty_disk)); left;
          reflexivity|].
  split; [apply (proj1 (absent_files_are_never_set _)); right; reflexivity|].
  apply (proj2 (absent_files_are_never_set _)); right; reflexivity.
Defined.

(** [kill_switch_set] never raises, whatever the disk holds. *)
Lemma kill_switch_set_returns (d : disk) :
  exists b, kill_switch_set d = Ok b.
Proof.
  unfold kill_switch_set; destruct (killswitch d); simpl; eauto.
Qed.

Example kill_switch_round_trip :
  match set_kill_switch empty_disk with
  | Ok d => kill_switch_set d
  | Raise e => Raise e
  end = Ok true.
Proof. reflexivity. Qed.

(* ================================================================= *)
(** ** The scrape loop *)

Lemma store_writes_app (ts us : list Z) (d : disk) :
  store_writes (ts ++ us)%list d = store_writes us (store_writes ts d).
Proof. unfold store_writes; apply fold_left_app. Qed.

Lemma written_app (xs ys : list event) :
  written (xs ++ ys)%list = (written xs ++ written ys)%list.
Proof. unfold written; apply flat_map_app. Qed.

Lemma notified_app (xs ys : list event) :
  notified (xs ++ ys)%list = (notified xs ++ notified ys)%list.
Proof. unfold notified; apply flat_map_app. Qed.

Lemma fetched_app (xs ys : list event) :
  fetched (xs ++ ys)%list = (fetched xs ++ fetched ys)%list.
Proof. unfold fetched; apply flat_map_app. Qed.

Lemma set_last_time_writable (t : Z) (d d' : disk) :
  set_last_time t d = Ok d' -> lasttime d' <> Inaccessible.
Proof.
  unfold set_last_time; destruct (lasttime d); simpl; try discriminate;
    intros [= <-]; discriminate.
Qed.

Lemma set_last_time_succeeds (t : Z) (d : disk) :
  lasttime d <> Inaccessible -> exists d', set_last_time t d = Ok d'.
Proof.
  unfold set_last_time; destruct (lasttime d); simpl; eauto; congruence.
Qed.

Lemma store_writes_writable (ts : list Z) (d : disk) :
  lasttime d <> Inaccessible -> lasttime (store_writes ts d) <> Inaccessible.
Proof.
  revert d; induction ts as [|t ts IH]; intros d H; [exact H|].
  simpl; apply IH.
  destruct (set_last_time t d) eqn:E; [|exact H].
  now apply set_last_time_writable in E.
Qed.

Section ScrapeFacts.

Variable mktime : struct_time -> Z.
Variable feedparser_parse : string -> feed.

Local Abbreviation published := (published mktime).
Local Abbreviation scan_entries := (scan_entries mktime).
Local Abbreviation scan_courts := (scan_courts mktime).
Local Abbreviation scrape := (scrape mktime feedparser_parse).
Local Abbreviation load_feeds := (load_feeds feedparser_parse).
Local Abbreviation court_calls := (court_calls mktime).
Local Abbreviation scan_calls := (scan_calls mktime).
Local Abbreviation reached := (reached mktime).

Lemma fresh_test (e : entry) (last_seen : Z) :
  (last_seen <? published e) = negb (published e <=? last_seen).
Proof. apply Z.ltb_antisym. Qed.

Lemma bind_ret {A B : Type} (a : A) (k : A -> M B) (d : disk) :
  bind (ret a) k d = k a d.
Proof. unfold bind, ret; now destruct (k a d) as [[r d2] evs]. Qed.

Lemma notify_then_write (e : entry) (t : Z) (d : disk) :
  (notifier e ;; write_last_time t) d
  = match set_last_time t d with
    | Ok d' => (Ok tt, d', [Notify e; WriteLastTime t])
    | Raise x => (Raise x, d, [Notify e; WriteLastTime t])
    end.
Proof.
  unfold bind, notifier, write_last_time, emit, bind.
  now destruct (set_last_time t d).
Qed.

(** The equations of the inner loop. *)
Lemma scan_entries_stale (last_seen : Z) (watched : list string)
      (e : entry) (rest : list entry) (d : disk) :
  published e <= last_seen ->
  scan_entries last_seen watched (e :: rest) d = (Ok tt, d, []).
Proof.
  intros H; apply Z.leb_le in H; simpl.
  unfold published in H |- *; now rewrite H.
Qed.

Lemma scan_entries_skip (last_seen : Z) (watched : list string)
      (e : entry) (rest : list entry) (d : disk) :
  last_seen < published e ->
  PyStr.member (case_id e) watched = false ->
  scan_entries last_seen watched (e :: rest) d
  = scan_entries last_seen watched rest d.
Proof.
  intros H Hm; apply Z.leb_gt in H; simpl.
  unfold published in H |- *; rewrite H, Hm.
  exact (bind_ret tt (fun _ => scan_entries last_seen watched rest) d).
Qed.

Lemma scan_entries_match (last_seen : Z) (watched : list string)
      (e : entry) (rest : list entry) (d : disk) :
  last_seen < published e ->
  PyStr.member (case_id e) watched = true ->
  scan_entries last_seen watched (e :: rest) d
  = match set_last_time (published e) d with
    | Ok d' =>
        match scan_entries last_seen watched rest d' with
        | (r, d2, evs) =>
            (r, d2, Notify e :: WriteLastTime (published e) :: evs)
        end
    | Raise x => (Raise x, d, [Notify e; WriteLastTime (published e)])
    end.
Proof.
  intros H Hm; apply Z.leb_gt in H; simpl.
  unfold published in H |- *; rewrite H, Hm.
  unfold bind at 1; rewrite notify_then_write.
  destruct (set_last_time _ d) as [d'|x]; [|reflexivity].
  now destruct (scan_entries last_seen watched rest d')
    as [[r d2] evs].
Qed.

Lemma court_calls_stale (last_seen : Z) (watched : list string)
      (e : entry) (rest : list entry) :
  published e <= last_seen ->
  court_calls last_seen watched (e :: rest) = [].
Proof.
  intros H; apply Z.ltb_ge in H; unfold court_calls; simpl.
  unfold published in H |- *; now rewrite H.
Qed.

Lemma court_calls_fresh (last_seen : Z) (watched : list string)
      (e : entry) (rest : list entry) :
  last_seen < published e ->
  court_calls last_seen watched (e :: rest)
  = ((if PyStr.member (case_id e) watched
      then [Notify e; WriteLastTime (published e)] else [])
     ++ court_calls last_seen watched rest)%list.
Proof.
  intros H; apply Z.ltb_lt in H; unfold court_calls; simpl.
  unfold published in H |- *; now rewrite H.
Qed.

(** The inner loop makes a prefix of the calls of the match rule, all of
    them when it returns; it returns when the file can be written, and
    raises nothing but the IOError of a failed write; the disk it leaves
    is the one its writes produce. *)
Lemma scan_entries_spec (last_seen : Z) (watched : list string)
      (es : list entry) :
  forall d,
    (exists later,
        court_calls last_seen watched es
        = (calls (scan_entries last_seen watched es d) ++ later)%list)
    /\ disk_after (scan_entries last_seen watched es d)
       = store_writes
           (written (calls (scan_entries last_seen watched es d))) d
    /\ (outcome (scan_entries last_seen watched es d) = Ok tt ->
        calls (scan_entries last_seen watched es d)
        = court_calls last_seen watched es)
    /\ (lasttime d <> Inaccessible ->
        outcome (scan_entries last_seen watched es d) = Ok tt)
    /\ (forall x, outcome (scan_entries last_seen watched es d) = Raise x ->
                  x = IOError).
Proof.
  induction es as [|e rest IH]; intros d.
  - simpl; unfold court_calls; simpl.
    repeat split; try discriminate. now exists [].
  - destruct (Z.le_gt_cases (published e) last_seen) as [Hstale|Hfresh].
    + rewrite scan_entries_stale, court_calls_stale by assumption.
      unfold outcome, disk_after, calls; simpl.
      repeat split; try discriminate. now exists [].
    + rewrite court_calls_fresh by assumption.
      destruct (PyStr.member (case_id e) watched) eqn:Hm.
      * rewrite scan_entries_match by assumption.
        destruct (set_last_time (published e) d) as [d'|x] eqn:Hw.
        -- destruct (IH d') as ((later & Hlater) & Hdisk & Hall & Hok & Hexn).
           destruct (scan_entries last_seen watched rest d')
             as [[r d2] evs].
           unfold outcome, disk_after, calls in *; simpl in *.
           rewrite Hw.
           repeat split.
           ++ exists later; now rewrite Hlater.
           ++ exact Hdisk.
           ++ intros Hr; now rewrite (Hall Hr).
           ++ intros _; apply Hok. now apply set_last_time_writable in Hw.
           ++ exact Hexn.
        -- unfold outcome, disk_after, calls; simpl. rewrite Hw.
           apply set_last_time_fails in Hw as [Hin ->].
           repeat split; try discriminate; try congruence.
           eexists; reflexivity.
      * rewrite scan_entries_skip by assumption. apply IH.
Qed.

(** The equation of the outer loop. *)
Lemma scan_courts_cons (cases : list (string * list string)) (last_seen : Z)
      (court : string) (f : feed) (rest : list (string * feed)) (d : disk) :
  scan_courts cases last_seen ((court, f) :: rest) d
  = match dict_get cases court with
    | None => (Raise (KeyError court), d, [])
    | Some watched =>
        match scan_entries last_seen watched (entries f) d with
        | (Ok _, d1, evs1) =>
            match scan_courts cases last_seen rest d1 with
            | (r, d2, evs2) => (r, d2, (evs1 ++ evs2)%list)
            end
        | (Raise x, d1, evs1) => (Raise x, d1, evs1)
        end
    end.
Proof.
  simpl; destruct (dict_get cases court); reflexivity.
Qed.

Lemma scan_courts_spec (cases : list (string * list string)) (last_seen : Z)
      (feeds : list (string * feed)) :
  forall d,
    (exists later,
        scan_calls cases last_seen feeds
        = (calls (scan_courts cases last_seen feeds d) ++ later)%list)
    /\ disk_after (scan_courts cases last_seen feeds d)
       = store_writes
           (written (calls (scan_courts cases last_seen feeds d))) d
    /\ (outcome (scan_courts cases last_seen feeds d) = Ok tt ->
        calls (scan_courts cases last_seen feeds d)
        = scan_calls cases last_seen feeds)
    /\ (lasttime d <> Inaccessible ->
        (forall cf, In cf feeds -> dict_get cases (fst cf) <> None) ->
        outcome (scan_courts cases last_seen feeds d) = Ok tt).
Proof.
  induction feeds as [|[court f] rest IH]; intros d.
  - unfold scan_calls; simpl. repeat split. now exists [].
  - rewrite scan_courts_cons.
    unfold scan_calls; simpl flat_map; fold (scan_calls cases last_seen rest).
    unfold watched_for.
    destruct (dict_get cases court) as [watched|] eqn:Hget.
    + destruct (scan_entries_spec last_seen watched (entries f) d)
        as ((later1 & Hl1) & Hd1 & Hall1 & Hok1 & _).
      destruct (scan_entries last_seen watched (entries f) d)
        as [[[[]|x] d1] evs1].
      * destruct (IH d1) as ((later2 & Hl2) & Hd2 & Hall2 & Hok2).
        destruct (scan_courts cases last_seen rest d1)
          as [[r d2] evs2].
        unfold outcome, disk_after, calls in *; simpl in *.
        repeat split.
        -- exists later2. rewrite (Hall1 eq_refl), Hl2.
           now rewrite app_assoc.
        -- now rewrite written_app, store_writes_app, <- Hd1.
        -- intros Hr. now rewrite (Hall1 eq_refl), (Hall2 Hr).
        -- intros Hw Hin. apply Hok2.
           ++ subst d1. now apply store_writes_writable.
           ++ intros cf Hcf; apply Hin; now right.
      * unfold outcome, disk_after, calls in *; simpl in *.
        repeat split; try discriminate.
        -- exists (later1 ++ scan_calls cases last_seen rest)%list.
           now rewrite Hl1, app_assoc.
        -- exact Hd1.
        -- intros Hw _. specialize (Hok1 Hw). discriminate.
    + unfold outcome, disk_after, calls; simpl.
      repeat split; try discriminate.
      * eexists; reflexivity.
      * intros _ Hin. exfalso.
        apply (Hin (court, f)); [now left|exact Hget].
Qed.

(** Loading the feeds. *)
Lemma feed_ok_or_not (f : feed) : feed_ok f \/ ~ feed_ok f.
Proof.
  unfold feed_ok; destruct (status f) as [code|]; [|right; discriminate].
  destruct (Z.eq_dec code 200) as [->|H]; [now left|right; congruence].
Qed.

Lemma get_feed_ok (url : string) (d : disk) :
  feed_ok (feedparser_parse url) ->
  get_feed feedparser_parse url d
  = (Ok (feedparser_parse url), d, [Fetch url]).
Proof.
  unfold feed_ok, get_feed, bind, emit; intros ->; reflexivity.
Qed.

Lemma get_feed_fail (url : string) (d : disk) :
  ~ feed_ok (feedparser_parse url) ->
  get_feed feedparser_parse url d
  = (Raise (get_feed_error (feedparser_parse url)), d, [Fetch url]).
Proof.
  unfold feed_ok, get_feed, get_feed_error, bind, emit; intros H.
  destruct (status (feedparser_parse url)) as [code|]; [|reflexivity].
  destruct (Z.eqb_spec code 200) as [->|Hne]; [now elim H|reflexivity].
Qed.

Lemma load_feeds_cons (court : string) (rest : list string) (d : disk) :
  load_feeds (court :: rest) d
  = match get_feed feedparser_parse (feed_url court) d with
    | (Ok f, d1, evs1) =>
        match load_feeds rest d1 with
        | (Ok fs, d2, evs2) => (Ok ((court, f) :: fs), d2, (evs1 ++ evs2)%list)
        | (Raise x, d2, evs2) => (Raise x, d2, (evs1 ++ evs2)%list)
        end
    | (Raise x, d1, evs1) => (Raise x, d1, evs1)
    end.
Proof.
  simpl; unfold bind at 1.
  destruct (get_feed feedparser_parse (feed_url court) d) as [[[f|x] d1] evs1];
    [|reflexivity].
  unfold bind, ret.
  destruct (load_feeds rest d1)
    as [[[fs|x] d2] evs2]; [|reflexivity].
  now rewrite app_nil_r.
Qed.

Lemma load_feeds_ok (courts : list string) (d : disk) :
  Forall (fun court => feed_ok (feedparser_parse (feed_url court))) courts ->
  load_feeds courts d
  = (Ok (loaded feedparser_parse courts), d, fetches courts).
Proof.
  induction 1 as [|court rest Hc _ IH]; [reflexivity|].
  now rewrite load_feeds_cons, get_feed_ok, IH.
Qed.

Lemma load_feeds_fail (pre : list string) (court : string)
      (post : list string) (d : disk) :
  Forall (fun c => feed_ok (feedparser_parse (feed_url c))) pre ->
  ~ feed_ok (feedparser_parse (feed_url court)) ->
  load_feeds (pre ++ court :: post)%list d
  = (Raise (get_feed_error (feedparser_parse (feed_url court))), d,
     fetches (pre ++ [court])%list).
Proof.
  intros Hpre Hbad; induction Hpre as [|c pre Hc _ IH]; simpl app.
  - now rewrite load_feeds_cons, get_feed_fail.
  - now rewrite load_feeds_cons, get_feed_ok, IH.
Qed.

(** Either every feed is a success or there is a first one that is not. *)
Lemma first_failure (courts : list string) :
  Forall (fun c => feed_ok (feedparser_parse (feed_url c))) courts
  \/ exists pre court post,
      courts = (pre ++ court :: post)%list
      /\ Forall (fun c => feed_ok (feedparser_parse (feed_url c))) pre
      /\ ~ feed_ok (feedparser_parse (feed_url court)).
Proof.
  induction courts as [|c rest IH]; [now left|].
  destruct (feed_ok_or_not (feedparser_parse (feed_url c))) as [Hc|Hc].
  - destruct IH as [IH|(pre & court & post & -> & Hpre & Hbad)].
    + left; now constructor.
    + right; exists (c :: pre), court, post; repeat split; auto.
  - right; exists [], c, rest; repeat split; auto.
Qed.

(** The two shapes of a run. *)
Lemma scrape_aborts (cases : list (string * list string))
      (pre : list string) (court : string) (post : list string) (d : disk) :
  keys cases = (pre ++ court :: post)%list ->
  Forall (fun c => feed_ok (feedparser_parse (feed_url c))) pre ->
  ~ feed_ok (feedparser_parse (feed_url court)) ->
  scrape cases d
  = (Raise (get_feed_error (feedparser_parse (feed_url court))), d,
     fetches (pre ++ [court])%list).
Proof.
  intros Hk Hpre Hbad; unfold scrape, bind at 1.
  now rewrite Hk, load_feeds_fail.
Qed.

Lemma scrape_loaded (cases : list (string * list string)) (d : disk) :
  Forall (fun c => feed_ok (feedparser_parse (feed_url c))) (keys cases) ->
  scrape cases d
  = match get_last_time d with
    | Ok last_seen =>
        match scan_courts cases last_seen
                          (loaded feedparser_parse (keys cases)) d with
        | (r, d2, evs) =>
            (r, d2, (fetches (keys cases) ++ ReadLastTime :: evs)%list)
        end
    | Raise x => (Raise x, d, (fetches (keys cases) ++ [ReadLastTime])%list)
    end.
Proof.
  intros Hok; unfold scrape, bind at 1.
  rewrite load_feeds_ok by assumption.
  unfold read_last_time, bind, emit.
  destruct (get_last_time d) as [last_seen|x]; [|reflexivity].
  now destruct (scan_courts cases last_seen _ d)
    as [[r d2] evs].
Qed.

(** What the calls of the match rule are made of. *)
Lemma reached_in (last_seen : Z) (es : list entry) (e : entry) :
  In e (reached last_seen es) -> In e es /\ last_seen < published e.
Proof.
  induction es as [|x rest IH]; simpl; [contradiction|].
  destruct (Z.ltb_spec last_seen (published x)) as [Hx|Hx]; [|contradiction].
  intros [<-|H]; [split; [now left|exact Hx]|].
  destruct (IH H); split; [now right|assumption].
Qed.

Lemma court_calls_in (last_seen : Z) (watched : list string)
      (es : list entry) (ev : event) :
  In ev (court_calls last_seen watched es) ->
  exists e,
    In e es /\ last_seen < published e
    /\ PyStr.member (case_id e) watched = true
    /\ (ev = Notify e \/ ev = WriteLastTime (published e)).
Proof.
  unfold court_calls; intros H; apply in_flat_map in H as (e & He & Hev).
  apply reached_in in He as [He Ht].
  exists e; destruct (PyStr.member (case_id e) watched); [|contradiction].
  repeat split; try assumption.
  destruct Hev as [<-|[<-|[]]]; [now left|now right].
Qed.

Lemma court_calls_all_stale (last_seen : Z) (watched : list string)
      (es : list entry) :
  (forall e, In e es -> published e <= last_seen) ->
  court_calls last_seen watched es = [].
Proof.
  intros H; destruct es as [|e rest]; [reflexivity|].
  apply court_calls_stale, H; now left.
Qed.

Lemma notified_court_calls (last_seen : Z) (watched : list string)
      (es : list entry) :
  notified (court_calls last_seen watched es)
  = filter (fun e => PyStr.member (case_id e) watched)
           (reached last_seen es).
Proof.
  unfold court_calls.
  induction (reached last_seen es) as [|e rest IH]; [reflexivity|].
  simpl flat_map; rewrite notified_app, IH; simpl filter.
  now destruct (PyStr.member (case_id e) watched).
Qed.

Lemma scan_calls_in (cases : list (string * list string)) (last_seen : Z)
      (feeds : list (string * feed)) (ev : event) :
  In ev (scan_calls cases last_seen feeds) ->
  exists cf e,
    In cf feeds /\ In e (entries (snd cf)) /\ last_seen < published e
    /\ PyStr.member (case_id e) (watched_for cases (fst cf)) = true
    /\ (ev = Notify e \/ ev = WriteLastTime (published e)).
Proof.
  unfold scan_calls; intros H; apply in_flat_map in H as (cf & Hcf & Hev).
  apply court_calls_in in Hev as (e & He).
  now exists cf, e.
Qed.

Lemma fetches_only_fetch (courts : list string) :
  notified (fetches courts) = [] /\ written (fetches courts) = []
  /\ ~ In ReadLastTime (fetches courts).
Proof.
  induction courts as [|c rest (Hn & Hw & Hr)]; simpl; [now auto|].
  repeat split; try assumption.
  intros [H|H]; [discriminate|now apply Hr].
Qed.

Lemma scan_calls_no_fetch (cases : list (string * list string))
      (last_seen : Z) (feeds : list (string * feed)) (evs later : list event) :
  scan_calls cases last_seen feeds = (evs ++ later)%list ->
  fetched evs = [] /\ ~ In ReadLastTime evs.
Proof.
  intros H.
  assert (Hin : forall ev, In ev evs ->
                  exists e, ev = Notify e \/ ev = WriteLastTime (published e)).
  { intros ev Hev.
    destruct (scan_calls_in cases last_seen feeds ev) as (_ & e & _ & _ & _ & _ & He).
    - rewrite H; apply in_or_app; now left.
    - now exists e. }
  clear H; split.
  - induction evs as [|ev rest IH]; [reflexivity|].
    destruct (Hin ev (or_introl eq_refl)) as (e & [->| ->]); simpl;
      apply IH; intros ev' H'; apply Hin; now right.
  - intros Hr; destruct (Hin _ Hr) as (e & [?|?]); discriminate.
Qed.

Lemma dict_get_key {V : Type} (dict : list (string * V)) (k : string) :
  In k (keys dict) -> dict_get dict k <> None.
Proof.
  induction dict as [|[k' v] rest IH]; simpl; [contradiction|].
  destruct (String.eqb_spec k k') as [->|Hne]; [discriminate|].
  intros [H|H]; [congruence|now apply IH].
Qed.

Lemma dict_get_in {V : Type} (dict : list (string * V)) (k : string) (v : V) :
  NoDup (keys dict) -> In (k, v) dict -> dict_get dict k = Some v.
Proof.
  induction dict as [|[k' v'] rest IH]; simpl; [contradiction|].
  intros Hnd [H|H].
  - injection H as -> ->; now rewrite String.eqb_refl.
  - inversion Hnd as [|? ? Hnotin Hnd']; subst.
    destruct (String.eqb_spec k k') as [->|Hne]; [|now apply IH].
    exfalso; apply Hnotin. change k' with (fst (k', v)); now apply in_map.
Qed.

Lemma member_in (x : string) (l : list string) :
  PyStr.member x l = true <-> In x l.
Proof.
  unfold PyStr.member; rewrite existsb_exists; split.
  - intros (y & Hy & E); apply String.eqb_eq in E as ->; exact Hy.
  - intros H; exists x; split; [exact H|apply String.eqb_refl].
Qed.

(** A run takes one of three courses: a fetch fails; the feeds load and
    the last-seen time cannot be parsed; the feeds load and the courts
    are scanned. *)
Lemma scrape_courses (cases : list (string * list string)) (d : disk) :
  (exists pre court post,
      keys cases = (pre ++ court :: post)%list
      /\ Forall (fun c => feed_ok (feedparser_parse (feed_url c))) pre
      /\ ~ feed_ok (feedparser_parse (feed_url court))
      /\ scrape cases d
         = (Raise (get_feed_error (feedparser_parse (feed_url court))), d,
            fetches (pre ++ [court])%list))
  \/ (Forall (fun c => feed_ok (feedparser_parse (feed_url c))) (keys cases)
      /\ exists x,
          get_last_time d = Raise x
          /\ scrape cases d
             = (Raise x, d, (fetches (keys cases) ++ [ReadLastTime])%list))
  \/ (Forall (fun c => feed_ok (feedparser_parse (feed_url c))) (keys cases)
      /\ exists last_seen r evs later,
          get_last_time d = Ok last_seen
          /\ scan_calls cases last_seen (loaded feedparser_parse (keys cases))
             = (evs ++ later)%list
          /\ scrape cases d
             = (r, store_writes (written evs) d,
                (fetches (keys cases) ++ ReadLastTime :: evs)%list)
          /\ (r = Ok tt -> later = [])
          /\ (lasttime d <> Inaccessible -> r = Ok tt)).
Proof.
  destruct (first_failure (keys cases))
    as [Hok|(pre & court & post & Hk & Hpre & Hbad)].
  - right. rewrite (scrape_loaded cases d Hok).
    destruct (get_last_time d) as [last_seen|x] eqn:Hget.
    + right; split; [exact Hok|].
      destruct (scan_courts_spec cases last_seen
                  (loaded feedparser_parse (keys cases)) d)
        as ((later & Hl) & Hd & Hall & Hfin).
      destruct (scan_courts cases last_seen _ d)
        as [[r d2] evs].
      unfold outcome, disk_after, calls in *; simpl in *.
      exists last_seen, r, evs, later; subst d2; repeat split; auto.
      * intros Hr. specialize (Hall Hr). rewrite Hl in Hall.
        rewrite <- (app_nil_r evs) in Hall at 1.
        now apply app_inv_head in Hall.
      * intros Hw; apply Hfin; [exact Hw|].
        intros cf Hcf; unfold loaded in Hcf.
        apply in_map_iff in Hcf as (c & <- & Hc); simpl.
        now apply dict_get_key.
    + left; split; [exact Hok|]. now exists x.
  - left. exists pre, court, post; repeat split; auto.
    now apply (scrape_aborts cases pre court post).
Qed.


Lemma notified_in (evs : list event) (e : entry) :
  In e (notified evs) -> In (Notify e) evs.
Proof.
  unfold notified; intros H; apply in_flat_map in H as (ev & Hev & He).
  destruct ev; simpl in He; try contradiction.
  destruct He as [->|[]]; exact Hev.
Qed.

Lemma scan_calls_loaded (cases : list (string * list string))
      (last_seen : Z) :
  NoDup (keys cases) ->
  scan_calls cases last_seen (loaded feedparser_parse (keys cases))
  = flat_map
      (fun cw => court_calls last_seen (snd cw)
                   (entries (feedparser_parse (feed_url (fst cw)))))
      cases.
Proof.
  intros Hnd.
  assert (H : forall l,
             (forall cw, In cw l -> watched_for cases (fst cw) = snd cw) ->
             scan_calls cases last_seen (loaded feedparser_parse (keys l))
             = flat_map
                 (fun cw => court_calls last_seen (snd cw)
                              (entries (feedparser_parse (feed_url (fst cw)))))
                 l).
  { induction l as [|cw l IH]; intros Hl; [reflexivity|].
    unfold scan_calls, loaded, keys in *; simpl.
    rewrite (Hl cw) by now left.
    f_equal; apply IH; intros cw' Hcw'; apply Hl; now right. }
  apply H; intros [court watched] Hin; unfold watched_for; simpl.
  now rewrite (dict_get_in cases court watched Hnd Hin).
Qed.

Lemma notified_flat_map {A : Type} (f : A -> list event) (l : list A) :
  notified (flat_map f l) = flat_map (fun a => notified (f a)) l.
Proof.
  induction l as [|a l IH]; [reflexivity|].
  simpl; now rewrite notified_app, IH.
Qed.

(** A run whose entries are all at or before the last-seen time it reads
    notifies nobody. *)
Lemma stale_run_is_silent (cases : list (string * list string)) (d : disk)
      (w : Z) :
  get_last_time d = Ok w ->
  (forall court e,
      In court (keys cases) ->
      In e (entries (feedparser_parse (feed_url court))) ->
      published e <= w) ->
  notified (calls (scrape cases d)) = [].
Proof.
  intros Hget Hstale.
  destruct (scrape_courses cases d)
    as [(pre & court & post & _ & _ & _ & ->)
       |[(_ & x & _ & ->)
        |(_ & last_seen & r & evs & later & Hw & Hcalls & -> & _)]];
    unfold calls; simpl.
  - apply fetches_only_fetch.
  - rewrite notified_app; simpl; rewrite app_nil_r.
    apply fetches_only_fetch.
  - rewrite notified_app; simpl.
    rewrite (proj1 (fetches_only_fetch (keys cases))); simpl.
    rewrite Hget in Hw; injection Hw as <-.
    destruct (notified evs) as [|e rest] eqn:Hn; [reflexivity|exfalso].
    assert (Hin : In (Notify e) (scan_calls cases w
                                   (loaded feedparser_parse (keys cases)))).
    { rewrite Hcalls; apply in_or_app; left; apply notified_in.
      rewrite Hn; now left. }
    apply scan_calls_in in Hin as (cf & e' & Hcf & He' & Hfresh & _).
    unfold loaded in Hcf; apply in_map_iff in Hcf as (court & <- & Hcourt).
    specialize (Hstale court e' Hcourt He'). lia.
Qed.

(** C1 (idempotence under no new entries).  Run the scrape twice on the
    same feeds.  If no entry of any watched court is published after the
    last-seen time that the first run leaves on disk, the second run
    calls the notifier zero times. *)
Theorem second_run_is_silent (cases : list (string * list string))
        (d : disk) (w1 : Z) :
  get_last_time (disk_after (scrape cases d)) = Ok w1 ->
  (forall court e,
      In court (keys cases) ->
      In e (entries (feedparser_parse (feed_url court))) ->
      published e <= w1) ->
  notified (calls (scrape cases (disk_after (scrape cases d)))) = [].
Proof.
  intros Hget Hstale.
  exact (stale_run_is_silent cases _ w1 Hget Hstale).
Qed.

Lemma reached_prefix (last_seen : Z) (before : list entry) (e : entry)
      (after : list entry) :
  (forall x, In x before -> last_seen < published x) ->
  last_seen < published e ->
  In e (reached last_seen (before ++ e :: after)%list).
Proof.
  intros Hbefore He; induction before as [|x before IH]; simpl.
  - apply Z.ltb_lt in He; unfold published in He |- *; rewrite He; now left.
  - assert (Hx : last_seen < published x) by (apply Hbefore; now left).
    apply Z.ltb_lt in Hx; unfold published in Hx |- *; rewrite Hx.
    right; apply IH; intros y Hy; apply Hbefore; now right.
Qed.

Lemma reached_split (last_seen : Z) (es : list entry) (e : entry) :
  In e (reached last_seen es) ->
  exists before after,
    es = (before ++ e :: after)%list
    /\ (forall x, In x before -> last_seen < published x)
    /\ last_seen < published e.
Proof.
  induction es as [|x rest IH]; simpl; [contradiction|].
  destruct (Z.ltb_spec last_seen (published x)) as [Hx|Hx]; [|contradiction].
  intros [<-|H].
  - exists [], rest; repeat split; [intros y []|exact Hx].
  - destruct (IH H) as (before & after & -> & Hbefore & He).
    exists (x :: before), after; repeat split; [|exact He].
    intros y [<-|Hy]; [exact Hx|now apply Hbefore].
Qed.

(** C5 (match rule, amended).  In a run that completes, take an entry
    that the loop reaches: it stands in the feed of a watched court, it
    is published after the last-seen time read at the start, and so is
    every entry before it in that feed.  The notifier is invoked for it
    if the final segment of its link (the link itself, or what follows
    its last question mark) is on the watch list of that court; and
    conversely whoever is notified is such an entry of some watched
    court.  Court after court, the entries notified are the reached
    entries with a watched final segment, in feed order. *)
Theorem match_rule (cases : list (string * list string)) (d : disk)
        (last_seen : Z) :
  NoDup (keys cases) ->
  get_last_time d = Ok last_seen ->
  outcome (scrape cases d) = Ok tt ->
  (forall court watched before e after,
      In (court, watched) cases ->
      entries (feedparser_parse (feed_url court))
      = (before ++ e :: after)%list ->
      (forall x, In x before -> last_seen < published x) ->
      last_seen < published e ->
      In (case_id e) watched ->
      In e (notified (calls (scrape cases d))))
  /\ (forall e,
         In e (notified (calls (scrape cases d))) ->
         exists court watched before after,
           In (court, watched) cases
           /\ entries (feedparser_parse (feed_url court))
              = (before ++ e :: after)%list
           /\ (forall x, In x before -> last_seen < published x)
           /\ last_seen < published e
           /\ In (case_id e) watched)
  /\ notified (calls (scrape cases d))
     = flat_map (matches_of mktime feedparser_parse last_seen) cases
  /\ (forall e, last_segment (link e) (case_id e)).
Proof.
  intros Hnd Hget Hdone.
  assert (Hlist : notified (calls (scrape cases d))
                  = flat_map (matches_of mktime feedparser_parse last_seen)
                             cases).
  { destruct (scrape_courses cases d)
      as [(pre & court & post & _ & _ & _ & E)
         |[(_ & x & _ & E)
          |(_ & w & r & evs & later & Hw & Hcalls & E & Hall & _)]];
      rewrite E in Hdone |- *; unfold outcome, calls in *; simpl in *;
      try discriminate.
    rewrite Hget in Hw; injection Hw as <-.
    rewrite (Hall Hdone), app_nil_r in Hcalls.
    rewrite notified_app; simpl.
    rewrite (proj1 (fetches_only_fetch (keys cases))); simpl.
    rewrite <- Hcalls, scan_calls_loaded, notified_flat_map by assumption.
    apply flat_map_ext; intros cw; apply notified_court_calls. }
  split; [|split; [|split; [exact Hlist|]]].
  - intros court watched before e after Hin Hfeed Hbefore He Hwatched.
    rewrite Hlist; apply in_flat_map.
    exists (court, watched); split; [exact Hin|].
    unfold matches_of; simpl; rewrite Hfeed.
    apply filter_In; split; [now apply reached_prefix|now apply member_in].
  - intros e He; rewrite Hlist in He.
    apply in_flat_map in He as ([court watched] & Hin & He).
    unfold matches_of in He; simpl in He.
    apply filter_In in He as [Hreached Hwatched].
    apply reached_split in Hreached as (before & after & Hfeed & Hbefore & Hfresh).
    exists court, watched, before, after; repeat split; try assumption.
    now apply member_in.
  - intros e; apply case_id_is_last_segment.
Qed.



(** C10 (fetches come first).  The calls of a run are fetches of watched
    courts followed by calls that fetch nothing, and anything follows
    the fetches only when every watched court has been fetched.  Hence,
    when the feed of some watched court is not a success, the run raises
    with the disk as it was: the last-seen time was neither read nor
    written and nobody was notified. *)
Theorem fetches_come_first (cases : list (string * list string)) (d : disk) :
  (exists courts rest,
      calls (scrape cases d) = (fetches courts ++ rest)%list
      /\ fetched rest = []
      /\ (rest <> [] -> courts = keys cases))
  /\ (forall court,
         In court (keys cases) ->
         ~ feed_ok (feedparser_parse (feed_url court)) ->
         (exists x, outcome (scrape cases d) = Raise x)
         /\ disk_after (scrape cases d) = d
         /\ written (calls (scrape cases d)) = []
         /\ notified (calls (scrape cases d)) = []
         /\ ~ In ReadLastTime (calls (scrape cases d))).
Proof.
  destruct (scrape_courses cases d)
    as [(pre & failing & post & Hk & Hpre & Hfail & E)
       |[(Hok & x & _ & E)
        |(Hok & w & r & evs & later & _ & Hcalls & E & _)]];
    rewrite E; unfold outcome, disk_after, calls; simpl; split.
  - exists (pre ++ [failing])%list, []; rewrite app_nil_r.
    repeat split; congruence.
  - intros court _ _.
    destruct (fetches_only_fetch (pre ++ [failing])%list) as (Hn & Hw & Hr).
    repeat split; eauto.
  - exists (keys cases), [ReadLastTime]; repeat split.
  - intros court Hin Hbad; exfalso; apply Hbad.
    rewrite Forall_forall in Hok; now apply Hok.
  - exists (keys cases), (ReadLastTime :: evs); repeat split.
    simpl; now apply (scan_calls_no_fetch _ _ _ _ _ Hcalls).
  - intros court Hin Hbad; exfalso; apply Hbad.
    rewrite Forall_forall in Hok; now apply Hok.
Qed.


End ScrapeFacts.

(* ================================================================= *)
(** ** The last-seen time across runs *)



(** Not every run writes non-decreasing times: with two filings of a
    watched case in a feed, newest first, the run writes 2000 and then
    1000. *)
Lemma writes_fall_within_a_run :
  ~ (forall (mktime : struct_time -> Z) (feedparser_parse : string -> feed)
            (cases : list (string * list string)) (d : disk) (w0 : Z),
        get_last_time d = Ok w0 ->
        nondecreasing_from w0
          (written (calls (scrape mktime feedparser_parse cases d)))).
Proof.
  intros H.
  specialize (H utc_mktime (serving two_filings) ilnd_watch empty_disk 0
                eq_refl).
  vm_compute in H. destruct H as (_ & H & _). now apply H.
Qed.



(* ================================================================= *)
(** ** Runs on the sample data *)

(** The scenario of the specification: one notification, the last-seen
    time becomes 1000, and a second run on the same feed is silent. *)
Example scenario_one_filing :
  let run := scrape utc_mktime (serving one_filing) ilnd_watch empty_disk in
  outcome run = Ok tt
  /\ notified (calls run) = one_filing
  /\ get_last_time (disk_after run) = Ok 1000
  /\ notified (calls (scrape utc_mktime (serving one_filing) ilnd_watch
                             (disk_after run))) = [].
Proof. vm_compute; repeat split. Qed.

(** C2 (at most once per entry and time), on two filings of one watched
    case, newest first.  The first run hands both to the notifier and
    writes 2000, then 1000.  The filing of time 1000 is notified while
    the time on disk is 2000, and the run after it, on the same feed,
    hands the filing of time 2000 to the notifier a second time. *)
Example filing_notified_twice :
  notified (calls first_run) = two_filings
  /\ written (calls first_run) = [2000; 1000]
  /\ get_last_time (disk_after first_run) = Ok 1000
  /\ outcome next_run = Ok tt
  /\ notified (calls next_run) = [ilnd_entry "280638" 2000].
Proof. vm_compute; repeat split. Qed.

(** C4 (watermark dominance), on the same feed.  The first run completes
    and has notified the filing published at 2000, yet the last-seen
    time it leaves on disk is 1000. *)
Example watermark_below_a_notified_filing :
  outcome first_run = Ok tt
  /\ In (ilnd_entry "280638" 2000) (notified (calls first_run))
  /\ published utc_mktime (ilnd_entry "280638" 2000) = 2000
  /\ get_last_time (disk_after first_run) = Ok 1000.
Proof.
  repeat split; try (vm_compute; reflexivity).
  left; reflexivity.
Qed.

Lemma second_run_is_silent_witness :
  notified
    (calls (scrape utc_mktime (serving one_filing) ilnd_watch
                   (disk_after (scrape utc_mktime (serving one_filing)
                                       ilnd_watch empty_disk)))) = [].
Proof.
  apply (second_run_is_silent utc_mktime (serving one_filing) ilnd_watch
                              empty_disk 1000).
  - reflexivity.
  - intros court e _ He; simpl in He.
    destruct He as [<-|[]]; vm_compute; discriminate.
Defined.

(** C3 (monotonic watermark), on the same feed.  The run starts from a
    last-seen time of 0 and calls [set_last_time] with 2000 and then
    with 1000: the second write stores less than the value persisted
    before it. *)
Example watermark_written_downwards :
  get_last_time empty_disk = Ok 0
  /\ written (calls first_run) = [2000; 1000]
  /\ ~ nondecreasing_from 0 (written (calls first_run)).
Proof.
  split; [reflexivity|]. split; [vm_compute; reflexivity|].
  vm_compute; intros (_ & H & _); now apply H.
Qed.

(** The claim read to the letter fails on a feed that is not newest
    first: from a last-seen time of 1000, the filing of time 3000 is
    published after it and its case is watched, yet it stands behind a
    filing of time 500 and the notifier is not invoked for it. *)
Lemma fresh_entry_behind_an_old_one_is_missed :
  ~ (forall (mktime : struct_time -> Z) (feedparser_parse : string -> feed)
            (cases : list (string * list string)) (d : disk) (last_seen : Z)
            (court : string) (watched : list string) (e : entry),
        get_last_time d = Ok last_seen ->
        outcome (scrape mktime feedparser_parse cases d) = Ok tt ->
        In (court, watched) cases ->
        In e (entries (feedparser_parse (feed_url court))) ->
        last_seen < published mktime e ->
        (In e (notified (calls (scrape mktime feedparser_parse cases d)))
         <-> In (case_id e) watched)).
Proof.
  intros H.
  destruct (H utc_mktime (serving unsorted_filings) ilnd_watch disk_at_1000
              1000 "ilnd" ["280638"] (ilnd_entry "280638" 3000))
    as [_ Hback].
  - vm_compute; reflexivity.
  - vm_compute; reflexivity.
  - left; reflexivity.
  - right; left; reflexivity.
  - vm_compute; reflexivity.
  - assert (Hin : In (ilnd_entry "280638" 3000)
                     (notified (calls (scrape utc_mktime
                                              (serving unsorted_filings)
                                              ilnd_watch disk_at_1000))))
      by (apply Hback; left; vm_compute; reflexivity).
    vm_compute in Hin; exact Hin.
Qed.

Lemma match_rule_witness :
  In (ilnd_entry "280638" 1000)
     (notified (calls (scrape utc_mktime (serving one_filing) ilnd_watch
                              empty_disk)))
  /\ last_segment (link (ilnd_entry "280638" 1000))
                  (case_id (ilnd_entry "280638" 1000)).
Proof.
  assert (Hnd : NoDup (keys ilnd_watch))
    by (repeat constructor; simpl; tauto).
  assert (Hget : get_last_time empty_disk = Ok 0) by reflexivity.
  assert (Hdone : outcome (scrape utc_mktime (serving one_filing) ilnd_watch
                                  empty_disk) = Ok tt)
    by (vm_compute; reflexivity).
  destruct (match_rule utc_mktime (serving one_filing) ilnd_watch empty_disk
                       0 Hnd Hget Hdone) as (Hfound & _ & _ & Hsegment).
  split; [|exact (Hsegment _)].
  apply (Hfound "ilnd" ["280638"] [] (ilnd_entry "280638" 1000) []).
  - left; reflexivity.
  - reflexivity.
  - intros x [].
  - vm_compute; reflexivity.
  - left; vm_compute; reflexivity.
Defined.


Example fetch_failure_message :
  outcome (scrape utc_mktime (answering 404) ilnd_watch empty_disk)
  = Raise (Exception
             ("Getting PACER RSS feed "
              ++ "https://ecf.ilnd.uscourts.gov/cgi-bin/rss_outside.pl"
              ++ " failed with code 404.")).
Proof. reflexivity. Qed.

Lemma fetches_come_first_witness :
  disk_after (scrape utc_mktime (answering 404) ilnd_watch empty_disk)
  = empty_disk
  /\ written (calls (scrape utc_mktime (answering 404) ilnd_watch
                            empty_disk)) = [].
Proof.
  destruct (proj2 (fetches_come_first utc_mktime (answering 404) ilnd_watch
                                      empty_disk) "ilnd")
    as (_ & Hdisk & Hwritten & _).
  - left; reflexivity.
  - unfold feed_ok; simpl; discriminate.
  - now split.
Defined.

(* ================================================================= *)
(** * Further properties *)

(* ================================================================= *)
(** ** More on extraction *)

Lemma join_split (sep : ascii) (s : string) :
  PyStr.join (PyStr.char sep) (PyStr.split sep s) = s.
Proof.
  unfold PyStr.join; induction s as [|a r IH]; simpl; [reflexivity|].
  destruct (split_pieces sep r) as (p & rs & Hsplit & _).
  rewrite Hsplit in IH |- *.
  destruct (Ascii.eqb_spec a sep) as [->|Hne].
  - change (String.concat (PyStr.char sep) (EmptyString :: p :: rs))
      with (String sep (String.concat (PyStr.char sep) (p :: rs))).
    now rewrite IH.
  - destruct rs as [|q rs]; simpl in IH |- *; now rewrite <- IH.
Qed.

(** X1.  The case title is the entry title after its first space: a
    title without a space gives the empty string, and otherwise the
    title is its first token (which holds no space), one space and the
    case title; the title is never inspected beyond that. *)
Theorem case_is_title_after_first_space (e : entry) :
  (free_of " " (title e) /\ info_case (parse_entry e) = EmptyString)
  \/ (exists token,
         free_of " " token
         /\ title e = token ++ String " " (info_case (parse_entry e))).
Proof.
  unfold parse_entry; simpl.
  pose proof (join_split " " (title e)) as Hjoin.
  destruct (split_pieces " " (title e)) as (p & rs & Hsplit & Hp & _).
  rewrite Hsplit in Hjoin |- *; simpl tl.
  destruct rs as [|q rs].
  - left; simpl in Hjoin; subst p; split; [exact Hp|reflexivity].
  - right; exists p; split; [exact Hp|].
    rewrite <- Hjoin at 1. reflexivity.
Qed.




Lemma search_from_first (p : Re.pattern) (s g : string) :
  Re.search_from p s = Some g ->
  exists pre rest,
    s = pre ++ rest
    /\ Re.match_here p rest = Some g
    /\ forall pre1 pre2, pre = pre1 ++ pre2 -> pre2 <> EmptyString ->
                         Re.match_here p (pre2 ++ rest) = None.
Proof.
  induction s as [|a r IH]; simpl.
  - destruct (Re.match_here p EmptyString) eqn:E; [|discriminate].
    intros [= <-]; exists EmptyString, EmptyString; repeat split; auto.
    intros [|] [|]; simpl; congruence.
  - destruct (Re.match_here p (String a r)) eqn:E.
    + intros [= <-]; exists EmptyString, (String a r); repeat split; auto.
      intros [|] [|]; simpl; congruence.
    + intros H; destruct (IH H) as (pre & rest & -> & Hm & Hfirst).
      exists (String a pre), rest; repeat split; auto.
      intros [|b pre1] pre2; simpl.
      * intros <- _; exact E.
      * intros [= <- ->] Hne; now apply Hfirst with pre1.
Qed.

(** X4.  A successful search returns the group of the leftmost match of
    the pattern, and the longest group that matches at that place: no
    match starts earlier in the text, and no match at the same place has
    a longer group. *)
Theorem search_is_leftmost_longest (p : Re.pattern) (s g : string) :
  Re.search p s = Some g ->
  exists pre rest,
    s = pre ++ rest
    /\ (Re.anchored p = true -> pre = EmptyString)
    /\ matches_at p rest g
    /\ (forall g', matches_at p rest g' ->
                   (String.length g' <= String.length g)%nat)
    /\ (forall pre1 pre2 g',
           pre = pre1 ++ pre2 -> pre2 <> EmptyString ->
           ~ matches_at p (pre2 ++ rest) g').
Proof.
  assert (Hlong : forall rest, Re.match_here p rest = Some g ->
                    forall g', matches_at p rest g' ->
                               (String.length g' <= String.length g)%nat).
  { intros rest Hm g' Hg'.
    destruct (match_here_complete p rest g' Hg') as (g'' & Hg'' & Hlen).
    congruence. }
  unfold Re.search; destruct (Re.anchored p) eqn:Ha; intros H.
  - exists EmptyString, s.
    split; [reflexivity|]. split; [reflexivity|].
    split; [now apply match_here_sound|].
    split; [now apply Hlong|].
    intros [|] [|]; simpl; congruence.
  - apply search_from_first in H as (pre & rest & -> & Hm & Hfirst).
    exists pre, rest.
    split; [reflexivity|]. split; [discriminate|].
    split; [now apply match_here_sound|].
    split; [now apply Hlong|].
    intros pre1 pre2 g' E Hne Hg'.
    destruct (match_here_complete p _ g' Hg') as (g'' & Hg'' & _).
    rewrite (Hfirst pre1 pre2 E Hne) in Hg''; discriminate.
Qed.

Lemma search_is_leftmost_longest_witness :
  exists pre rest,
    two_attributes = pre ++ rest
    /\ matches_at Patterns.p_link rest
         ("https://ecf.ilnd.uscourts.gov/doc1/06711"
          ++ PyStr.char PyStr.dquote ++ " target="
          ++ PyStr.char PyStr.dquote ++ "_blank").
Proof.
  destruct (search_is_leftmost_longest Patterns.p_link two_attributes _
              eq_refl)
    as (pre & rest & E & _ & Hm & _).
  now exists pre, rest.
Defined.

(* ================================================================= *)
(** ** More on the ancillary files *)

(** X5.  Writing the last-seen time and reading it back gives the time
    written, for every integer, negative ones included, whatever the
    file held before; the kill-switch file is left as it was. *)
Theorem last_time_round_trip (t : Z) (d : disk) :
  lasttime d <> Inaccessible ->
  exists d',
    set_last_time t d = Ok d'
    /\ get_last_time d' = Ok t
    /\ killswitch d' = killswitch d.
Proof.
  intros Hw; destruct (set_last_time_succeeds t d Hw) as (d' & Hset).
  exists d'; repeat split; [exact Hset| |].
  - now apply get_last_time_after_set in Hset.
  - now apply set_last_time_killswitch in Hset.
Qed.

Lemma last_time_round_trip_witness :
  exists d',
    set_last_time (-86400) {| killswitch := Absent;
                              lasttime := Content "not a number" |} = Ok d'
    /\ get_last_time d' = Ok (-86400).
Proof.
  destruct (last_time_round_trip
              (-86400) {| killswitch := Absent;
                          lasttime := Content "not a number" |})
    as (d' & Hset & Hget & _).
  - discriminate.
  - now exists d'.
Defined.

(** X6.  After [set_kill_switch] the kill switch is set, whatever the
    kill-switch file held before, and the last-seen time is untouched. *)
Theorem kill_switch_stays_set (d : disk) :
  killswitch d <> Inaccessible ->
  exists d',
    set_kill_switch d = Ok d'
    /\ kill_switch_set d' = Ok true
    /\ lasttime d' = lasttime d.
Proof.
  intros Hw; unfold set_kill_switch.
  destruct (killswitch d) eqn:E; simpl; try congruence;
    eexists; repeat split.
Qed.

Lemma kill_switch_stays_set_witness :
  exists d',
    set_kill_switch {| killswitch := Content "no"; lasttime := Absent |}
    = Ok d'
    /\ kill_switch_set d' = Ok true.
Proof.
  destruct (kill_switch_stays_set
              {| killswitch := Content "no"; lasttime := Absent |})
    as (d' & Hset & Hget & _).
  - discriminate.
  - now exists d'.
Defined.

(** X7.  [get_last_time] raises nothing but ValueError, and only when
    the file is there and its first line is not an integer: a missing
    file is not an error, a damaged one is. *)
Theorem get_last_time_raises_only_on_bad_text (d : disk) (x : exn) :
  get_last_time d = Raise x ->
  x = ValueError
  /\ exists text,
      lasttime d = Content text /\ PyInt.int (readline text) = None.
Proof.
  unfold get_last_time; destruct (lasttime d) as [| |text]; simpl;
    try discriminate.
  destruct (PyInt.int (readline text)) eqn:E; simpl; [discriminate|].
  intros [= <-]; split; [reflexivity|now exists text].
Qed.

Lemma get_last_time_raises_only_on_bad_text_witness :
  exists text,
    Content "yesterday" = Content text /\ PyInt.int (readline text) = None.
Proof.
  apply (get_last_time_raises_only_on_bad_text
           {| killswitch := Absent; lasttime := Content "yesterday" |}
           ValueError).
  reflexivity.
Defined.

(* ================================================================= *)
(** ** More on the scrape loop *)

Lemma append_cancel_r (a b suffix : string) :
  a ++ suffix = b ++ suffix -> a = b.
Proof.
  revert b; induction a as [|x a IH]; intros [|y b] H; simpl in H.
  - reflexivity.
  - exfalso. apply (f_equal String.length) in H.
    simpl in H; rewrite length_append in H; lia.
  - exfalso. apply (f_equal String.length) in H.
    simpl in H; rewrite length_append in H; lia.
  - injection H as -> H; f_equal; now apply IH.
Qed.

Lemma feed_url_injective (c1 c2 : string) :
  feed_url c1 = feed_url c2 -> c1 = c2.
Proof.
  unfold feed_url; intros H.
  apply (f_equal (PyStr.strip_prefix "https://ecf.")) in H.
  rewrite !strip_prefix_append in H; injection H as H.
  now apply append_cancel_r in H.
Qed.

Lemma fetched_fetches (courts : list string) :
  fetched (fetches courts) = map feed_url courts.
Proof.
  induction courts as [|c rest IH]; simpl; [reflexivity|now rewrite IH].
Qed.

Lemma store_writes_killswitch (ts : list Z) (d : disk) :
  killswitch (store_writes ts d) = killswitch d.
Proof.
  revert d; induction ts as [|t ts IH]; intros d; [reflexivity|].
  unfold store_writes; simpl; fold (store_writes ts).
  rewrite IH; destruct (set_last_time t d) eqn:E; [|reflexivity].
  now apply set_last_time_killswitch in E.
Qed.

Lemma store_writes_last (ts : list Z) (t : Z) (d : disk) :
  lasttime d <> Inaccessible ->
  get_last_time (store_writes (ts ++ [t])%list d) = Ok t.
Proof.
  intros Hw; rewrite store_writes_app.
  pose proof (store_writes_writable ts d Hw) as Hw'.
  destruct (set_last_time_succeeds t _ Hw') as (d' & Hset).
  unfold store_writes at 1; simpl; rewrite Hset.
  now apply get_last_time_after_set in Hset.
Qed.

Lemma filter_filter {A : Type} (f g : A -> bool) (l : list A) :
  filter f (filter g l) = filter (fun x => g x && f x) l.
Proof.
  induction l as [|x l IH]; simpl; [reflexivity|].
  destruct (g x); simpl; [destruct (f x)|]; now rewrite IH.
Qed.

Lemma flat_map_ext_in {A B : Type} (f g : A -> list B) (l : list A) :
  (forall a, In a l -> f a = g a) -> flat_map f l = flat_map g l.
Proof.
  induction l as [|a l IH]; intros H; simpl; [reflexivity|].
  rewrite (H a) by now left.
  f_equal; apply IH; intros b Hb; apply H; now right.
Qed.

Lemma dict_get_some {V : Type} (dict : list (string * V)) (k : string) (v : V) :
  dict_get dict k = Some v -> In (k, v) dict.
Proof.
  induction dict as [|[k' v'] rest IH]; simpl; [discriminate|].
  destruct (String.eqb_spec k k') as [->|Hne].
  - intros [= ->]; now left.
  - intros H; right; now apply IH.
Qed.

Section MoreScrape.

Variable mktime : struct_time -> Z.
Variable feedparser_parse : string -> feed.

Lemma scan_entries_paired (last_seen : Z) (watched : list string)
      (es : list entry) :
  forall d,
    written (calls (scan_entries mktime last_seen watched es d))
    = map (published mktime)
          (notified (calls (scan_entries mktime last_seen watched es d))).
Proof.
  induction es as [|e rest IH]; intros d; [reflexivity|].
  destruct (Z.le_gt_cases (published mktime e) last_seen) as [Hstale|Hfresh].
  - now rewrite scan_entries_stale.
  - destruct (PyStr.member (case_id e) watched) eqn:Hm.
    + rewrite scan_entries_match by assumption.
      destruct (set_last_time (published mktime e) d) as [d'|x];
        [|reflexivity].
      specialize (IH d').
      destruct (scan_entries mktime last_seen watched rest d')
        as [[r d2] evs].
      unfold calls in *; simpl in *; now rewrite IH.
    + rewrite scan_entries_skip by assumption. apply IH.
Qed.

Lemma scan_courts_paired (cases : list (string * list string))
      (last_seen : Z) (feeds : list (string * feed)) :
  forall d,
    written (calls (scan_courts mktime cases last_seen feeds d))
    = map (published mktime)
          (notified (calls (scan_courts mktime cases last_seen feeds d))).
Proof.
  induction feeds as [|[court f] rest IH]; intros d; [reflexivity|].
  rewrite scan_courts_cons.
  destruct (dict_get cases court) as [watched|]; [|reflexivity].
  pose proof (scan_entries_paired last_seen watched (entries f) d) as H1.
  destruct (scan_entries mktime last_seen watched (entries f) d)
    as [[[[]|x] d1] evs1]; [|exact H1].
  specialize (IH d1).
  destruct (scan_courts mktime cases last_seen rest d1) as [[r d2] evs2].
  unfold calls in *; simpl in *.
  now rewrite written_app, notified_app, map_app, H1, IH.
Qed.

Lemma scrape_paired (cases : list (string * list string)) (d : disk) :
  written (calls (scrape mktime feedparser_parse cases d))
  = map (published mktime)
        (notified (calls (scrape mktime feedparser_parse cases d))).
Proof.
  destruct (first_failure feedparser_parse (keys cases))
    as [Hok|(pre & court & post & Hk & Hpre & Hbad)].
  - rewrite (scrape_loaded mktime feedparser_parse cases d Hok).
    destruct (get_last_time d) as [last_seen|x].
    + pose proof (scan_courts_paired cases last_seen
                    (loaded feedparser_parse (keys cases)) d) as H.
      destruct (scan_courts mktime cases last_seen _ d) as [[r d2] evs].
      unfold calls in *; simpl in *.
      rewrite written_app, notified_app.
      destruct (fetches_only_fetch (keys cases)) as (-> & -> & _).
      exact H.
    + unfold calls; simpl. rewrite written_app, notified_app.
      now destruct (fetches_only_fetch (keys cases)) as (-> & -> & _).
  - rewrite (scrape_aborts mktime feedparser_parse cases pre court post d
               Hk Hpre Hbad).
    unfold calls; simpl.
    now destruct (fetches_only_fetch (pre ++ [court])%list) as (-> & -> & _).
Qed.

(** X8.  In every run, the times written are the publication times of
    the entries handed to the notifier, in the same order: the script
    calls [set_last_time] once after each notification, with the time of
    that entry, and at no other moment. *)
Theorem one_write_per_notification (cases : list (string * list string))
        (d : disk) :
  written (calls (scrape mktime feedparser_parse cases d))
  = map (published mktime)
        (notified (calls (scrape mktime feedparser_parse cases d))).
Proof. exact (scrape_paired cases d). Qed.

Lemma disk_after_run (cases : list (string * list string)) (d : disk) :
  disk_after (scrape mktime feedparser_parse cases d)
  = store_writes (written (calls (scrape mktime feedparser_parse cases d))) d.
Proof.
  destruct (scrape_courses mktime feedparser_parse cases d)
    as [(pre & failing & post & _ & _ & _ & ->)
       |[(_ & x & _ & ->)
        |(_ & w & r & evs & later & _ & _ & -> & _)]];
    unfold disk_after, calls; simpl.
  - now destruct (fetches_only_fetch (pre ++ [failing])%list) as (_ & -> & _).
  - rewrite written_app.
    now destruct (fetches_only_fetch (keys cases)) as (_ & -> & _).
  - rewrite written_app.
    now destruct (fetches_only_fetch (keys cases)) as (_ & -> & _).
Qed.

(** X9.  Whoever is notified was found in the feed of a watched court,
    with a case identifier on the list of that court, and was published
    after the last-seen time the run read at its start. *)
Theorem notified_entries_are_watched (cases : list (string * list string))
        (d : disk) (e : entry) :
  In e (notified (calls (scrape mktime feedparser_parse cases d))) ->
  exists last_seen court,
    get_last_time d = Ok last_seen
    /\ last_seen < published mktime e
    /\ In court (keys cases)
    /\ In e (entries (feedparser_parse (feed_url court)))
    /\ In (case_id e) (watched_for cases court).
Proof.
  destruct (scrape_courses mktime feedparser_parse cases d)
    as [(pre & failing & post & _ & _ & _ & ->)
       |[(_ & x & _ & ->)
        |(_ & w & r & evs & later & Hget & Hcalls & -> & _)]];
    unfold calls; simpl.
  - now destruct (fetches_only_fetch (pre ++ [failing])%list) as (-> & _).
  - rewrite notified_app.
    now destruct (fetches_only_fetch (keys cases)) as (-> & _).
  - rewrite notified_app.
    destruct (fetches_only_fetch (keys cases)) as (-> & _); simpl.
    intros He; apply notified_in in He.
    destruct (scan_calls_in mktime cases w
                            (loaded feedparser_parse (keys cases)) (Notify e))
      as (cf & e' & Hcf & He' & Hfresh & Hm & [E|E]);
      [rewrite Hcalls; apply in_or_app; now left| |discriminate].
    injection E as <-.
    unfold loaded in Hcf; apply in_map_iff in Hcf as (court & <- & Hcourt).
    exists w, court; simpl in *; repeat split; try assumption.
    now apply member_in.
Qed.

(** X10.  When the last-seen file can be written, a run that notifies
    nobody leaves the disk as it was, and a run that notifies leaves on
    disk the publication time of the entry it notified last, not the
    greatest of the times it has seen. *)
Theorem last_notified_entry_sets_the_time
        (cases : list (string * list string)) (d : disk) :
  lasttime d <> Inaccessible ->
  (notified (calls (scrape mktime feedparser_parse cases d)) = [] ->
   disk_after (scrape mktime feedparser_parse cases d) = d)
  /\ (forall earlier e,
         notified (calls (scrape mktime feedparser_parse cases d))
         = (earlier ++ [e])%list ->
         get_last_time (disk_after (scrape mktime feedparser_parse cases d))
         = Ok (published mktime e)).
Proof.
  intros Hw; rewrite disk_after_run, scrape_paired; split.
  - now intros ->.
  - intros earlier e ->. rewrite map_app; simpl.
    now apply store_writes_last.
Qed.

(** X14.  No run touches the kill-switch file. *)
Theorem scrape_leaves_kill_switch (cases : list (string * list string))
        (d : disk) :
  killswitch (disk_after (scrape mktime feedparser_parse cases d))
  = killswitch d.
Proof.
  rewrite disk_after_run; apply store_writes_killswitch.
Qed.

End MoreScrape.

Section ScrapeEdges.

Variable mktime : struct_time -> Z.
Variable feedparser_parse : string -> feed.

Lemma reached_newest_first (last_seen : Z) (es : list entry) :
  newest_first mktime es ->
  reached mktime last_seen es
  = filter (fun e => last_seen <? published mktime e) es.
Proof.
  induction es as [|e rest IH]; [reflexivity|].
  intros [Hle Hrest]; simpl.
  destruct (Z.ltb_spec last_seen (published mktime e)) as [Hfresh|Hstale].
  - now rewrite IH.
  - symmetry. clear IH Hrest.
    induction rest as [|x rest IHr]; [reflexivity|]. simpl.
    assert (Hx : published mktime x <= published mktime e)
      by (apply Hle; now left).
    destruct (Z.ltb_spec last_seen (published mktime x)); [lia|].
    apply IHr; intros y Hy; apply Hle; now right.
Qed.

Lemma notified_of_completed_run (cases : list (string * list string))
      (d : disk) (last_seen : Z) :
  NoDup (keys cases) ->
  get_last_time d = Ok last_seen ->
  outcome (scrape mktime feedparser_parse cases d) = Ok tt ->
  notified (calls (scrape mktime feedparser_parse cases d))
  = flat_map (matches_of mktime feedparser_parse last_seen) cases.
Proof.
  intros Hnd Hget Hdone.
  destruct (scrape_courses mktime feedparser_parse cases d)
    as [(pre & court & post & _ & _ & _ & E)
       |[(_ & x & _ & E)
        |(_ & w & r & evs & later & Hw & Hcalls & E & Hall & _)]];
    rewrite E in Hdone |- *; unfold outcome, calls in *; simpl in *;
    try discriminate.
  rewrite Hget in Hw; injection Hw as <-.
  rewrite (Hall Hdone), app_nil_r in Hcalls.
  rewrite notified_app; simpl.
  rewrite (proj1 (fetches_only_fetch (keys cases))); simpl.
  rewrite <- Hcalls, scan_calls_loaded, notified_flat_map by assumption.
  apply flat_map_ext; intros cw; apply notified_court_calls.
Qed.

(** X11.  On feeds that are newest first, a run that completes misses
    nothing: it notifies, court after court and in feed order, exactly
    the entries published after the last-seen time read at its start
    whose case identifier is on the list of the court. *)
Theorem newest_first_feeds_miss_nothing
        (cases : list (string * list string)) (d : disk) (last_seen : Z) :
  NoDup (keys cases) ->
  get_last_time d = Ok last_seen ->
  outcome (scrape mktime feedparser_parse cases d) = Ok tt ->
  (forall court, In court (keys cases) ->
                 newest_first mktime
                              (entries (feedparser_parse (feed_url court)))) ->
  notified (calls (scrape mktime feedparser_parse cases d))
  = flat_map (fresh_and_watched mktime feedparser_parse last_seen) cases.
Proof.
  intros Hnd Hget Hdone Hsorted.
  rewrite (notified_of_completed_run cases d last_seen Hnd Hget Hdone).
  apply flat_map_ext_in; intros [court watched] Hin.
  unfold matches_of, fresh_and_watched; simpl.
  rewrite reached_newest_first, filter_filter; [reflexivity|].
  apply Hsorted. change court with (fst (court, watched)).
  now apply in_map.
Qed.

Lemma court_calls_nothing_watched (last_seen : Z) (es : list entry) :
  court_calls mktime last_seen [] es = [].
Proof.
  unfold court_calls.
  induction (reached mktime last_seen es) as [|e rest IH]; [reflexivity|].
  exact IH.
Qed.

(** X12.  Courts whose watch lists are all empty are still fetched, one
    after the other, and the last-seen time is read; nothing else
    happens: nobody is notified and the disk is left as it was. *)
Theorem empty_watch_lists_still_fetch (cases : list (string * list string))
        (d : disk) :
  (forall cw, In cw cases -> snd cw = []) ->
  Forall (fun c => feed_ok (feedparser_parse (feed_url c))) (keys cases) ->
  calls (scrape mktime feedparser_parse cases d)
  = (fetches (keys cases) ++ [ReadLastTime])%list
  /\ disk_after (scrape mktime feedparser_parse cases d) = d.
Proof.
  intros Hempty Hok.
  destruct (scrape_courses mktime feedparser_parse cases d)
    as [(pre & failing & post & Hk & _ & Hbad & _)
       |[(_ & x & _ & ->)
        |(_ & w & r & evs & later & _ & Hcalls & -> & _)]].
  - exfalso; apply Hbad. rewrite Forall_forall in Hok; apply Hok.
    rewrite Hk; apply in_or_app; right; now left.
  - now split.
  - assert (Hnone : forall l, scan_calls mktime cases w l = []).
    { unfold scan_calls.
      induction l as [|cf l IH]; [reflexivity|].
      simpl; rewrite IH, app_nil_r.
      unfold watched_for.
      destruct (dict_get cases (fst cf)) as [watched|] eqn:Hget;
        [|apply court_calls_nothing_watched].
      apply dict_get_some in Hget.
      pose proof (Hempty _ Hget) as Hnil; simpl in Hnil; subst watched.
      apply court_calls_nothing_watched. }
    rewrite (Hnone _) in Hcalls. symmetry in Hcalls.
    apply app_eq_nil in Hcalls as [-> _].
    now split.
Qed.

(** X13.  No feed is fetched twice in a run: the addresses fetched are
    pairwise distinct. *)
Theorem no_feed_is_fetched_twice (cases : list (string * list string))
        (d : disk) :
  NoDup (keys cases) ->
  NoDup (fetched (calls (scrape mktime feedparser_parse cases d))).
Proof.
  intros Hnd.
  assert (Hurls : forall l, NoDup l -> NoDup (map feed_url l)).
  { induction 1 as [|c l Hc _ IH]; simpl; constructor; [|exact IH].
    intros Hin; apply in_map_iff in Hin as (c' & E & Hc').
    apply feed_url_injective in E; now subst c'. }
  destruct (scrape_courses mktime feedparser_parse cases d)
    as [(pre & failing & post & Hk & _ & _ & ->)
       |[(_ & x & _ & ->)
        |(_ & w & r & evs & later & _ & Hcalls & -> & _)]];
    unfold calls; simpl.
  - rewrite fetched_fetches; apply Hurls.
    rewrite Hk in Hnd.
    change (pre ++ failing :: post)%list
      with (pre ++ [failing] ++ post)%list in Hnd.
    rewrite app_assoc in Hnd. now apply NoDup_app_remove_r in Hnd.
  - rewrite fetched_app, fetched_fetches; simpl; rewrite app_nil_r.
    now apply Hurls.
  - rewrite fetched_app, fetched_fetches; simpl.
    rewrite (proj1 (scan_calls_no_fetch mktime _ _ _ _ _ Hcalls)), app_nil_r.
    now apply Hurls.
Qed.


(** X16.  A feed that comes back without a status makes the run raise
    KeyError for the key [status] at that court, after the fetches made
    so far and before anything else, with the disk as it was. *)
Theorem missing_status_raises_key_error
        (cases : list (string * list string)) (d : disk)
        (pre : list string) (court : string) (post : list string) :
  keys cases = (pre ++ court :: post)%list ->
  Forall (fun c => feed_ok (feedparser_parse (feed_url c))) pre ->
  status (feedparser_parse (feed_url court)) = None ->
  scrape mktime feedparser_parse cases d
  = (Raise (KeyError "status"), d, fetches (pre ++ [court])%list).
Proof.
  intros Hk Hpre Hnone.
  rewrite (scrape_aborts mktime feedparser_parse cases pre court post d
             Hk Hpre).
  - unfold get_feed_error; now rewrite Hnone.
  - unfold feed_ok; congruence.
Qed.

(** X17.  A last-seen file that is present but whose first line is not
    an integer makes every run raise ValueError, after all the feeds
    have been fetched: nobody is notified and the file is not repaired. *)
Theorem damaged_last_time_stops_the_run
        (cases : list (string * list string)) (d : disk) (text : string) :
  Forall (fun c => feed_ok (feedparser_parse (feed_url c))) (keys cases) ->
  lasttime d = Content text ->
  PyInt.int (readline text) = None ->
  scrape mktime feedparser_parse cases d
  = (Raise ValueError, d, (fetches (keys cases) ++ [ReadLastTime])%list).
Proof.
  intros Hok Hfile Hint.
  rewrite (scrape_loaded mktime feedparser_parse cases d Hok).
  unfold get_last_time; rewrite Hfile; simpl; now rewrite Hint.
Qed.

End ScrapeEdges.

Lemma notified_entries_are_watched_witness :
  exists last_seen court,
    get_last_time empty_disk = Ok last_seen
    /\ last_seen < published utc_mktime (ilnd_entry "280638" 1000)
    /\ In court (keys ilnd_watch)
    /\ In (ilnd_entry "280638" 1000)
          (entries (serving one_filing (feed_url court)))
    /\ In (case_id (ilnd_entry "280638" 1000)) (watched_for ilnd_watch court).
Proof.
  apply (notified_entries_are_watched utc_mktime (serving one_filing)
                                      ilnd_watch empty_disk).
  left; reflexivity.
Defined.

Lemma last_notified_entry_sets_the_time_witness :
  get_last_time (disk_after first_run)
  = Ok (published utc_mktime (ilnd_entry "280638" 1000)).
Proof.
  apply (proj2 (last_notified_entry_sets_the_time
                  utc_mktime (serving two_filings) ilnd_watch empty_disk
                  ltac:(discriminate))
               [ilnd_entry "280638" 2000] (ilnd_entry "280638" 1000)).
  reflexivity.
Defined.

Lemma newest_first_feeds_miss_nothing_witness :
  notified (calls first_run)
  = flat_map (fresh_and_watched utc_mktime (serving two_filings) 0) ilnd_watch.
Proof.
  apply (newest_first_feeds_miss_nothing utc_mktime (serving two_filings)
                                         ilnd_watch empty_disk 0).
  - repeat constructor; simpl; tauto.
  - reflexivity.
  - reflexivity.
  - intros court _; simpl; split.
    + intros x [<-|[]]; vm_compute; discriminate.
    + split; [intros x []|exact I].
Defined.

Lemma empty_watch_lists_still_fetch_witness :
  calls (scrape utc_mktime (serving two_filings) nothing_watched empty_disk)
  = (fetches (keys nothing_watched) ++ [ReadLastTime])%list
  /\ disk_after (scrape utc_mktime (serving two_filings) nothing_watched
                        empty_disk) = empty_disk.
Proof.
  apply (empty_watch_lists_still_fetch utc_mktime (serving two_filings)
                                       nothing_watched empty_disk).
  - intros cw [<-|[<-|[]]]; reflexivity.
  - repeat constructor.
Defined.

Lemma no_feed_is_fetched_twice_witness :
  NoDup (fetched (calls (scrape utc_mktime (serving two_filings) two_courts
                                empty_disk))).
Proof.
  apply (no_feed_is_fetched_twice utc_mktime (serving two_filings)
                                  two_courts empty_disk).
  repeat constructor; simpl; intuition discriminate.
Defined.


Lemma missing_status_raises_key_error_witness :
  scrape utc_mktime silent two_courts empty_disk
  = (Raise (KeyError "status"), empty_disk, fetches ["ilnd"]).
Proof.
  apply (missing_status_raises_key_error utc_mktime silent two_courts
                                         empty_disk [] "ilnd" ["cacd"]).
  - reflexivity.
  - constructor.
  - reflexivity.
Defined.

Lemma damaged_last_time_stops_the_run_witness :
  scrape utc_mktime (serving two_filings) two_courts damaged_disk
  = (Raise ValueError, damaged_disk,
     (fetches (keys two_courts) ++ [ReadLastTime])%list).
Proof.
  apply (damaged_last_time_stops_the_run utc_mktime (serving two_filings)
                                         two_courts damaged_disk "yesterday").
  - repeat constructor.
  - reflexivity.
  - reflexivity.
Defined.

(* ================================================================= *)
(** ** The tweet *)

Lemma length_take (n : nat) (s : string) :
  String.length (take n s) = Nat.min n (String.length s).
Proof.
  revert s; induction n as [|n IH]; intros [|a r]; simpl; auto.
Qed.

Lemma take_is_prefix (n : nat) (s : string) :
  exists dropped, s = take n s ++ dropped.
Proof.
  revert s; induction n as [|n IH]; intros s.
  - now exists s.
  - destruct s as [|a r]; [now exists EmptyString|].
    destruct (IH r) as (dropped & E).
    exists dropped; simpl; now rewrite <- E.
Qed.

Lemma truncate_length (s : string) (num : Z) :
  3 <= num ->
  Z.of_nat (String.length (truncate s num))
  = Z.min num (Z.of_nat (String.length s)).
Proof.
  intros Hnum; unfold truncate, slice_to.
  destruct (Z.ltb_spec num (Z.of_nat (String.length s))) as [Hlong|Hfits];
    [|lia].
  destruct (Z.ltb_spec (num - 3) 0) as [Hneg|_]; [lia|].
  rewrite length_append, length_take; simpl String.length. lia.
Qed.

(** X19.  For a limit of three or more, [truncate] returns a text of at
    most that many characters: the text itself when it fits, and
    otherwise a prefix of it followed by three dots, of exactly the
    limit in length. *)
Theorem truncate_fits (s : string) (num : Z) :
  3 <= num ->
  Z.of_nat (String.length (truncate s num))
  = Z.min num (Z.of_nat (String.length s))
  /\ (Z.of_nat (String.length s) <= num -> truncate s num = s)
  /\ (num < Z.of_nat (String.length s) ->
      exists kept dropped,
        s = kept ++ dropped /\ truncate s num = kept ++ "...").
Proof.
  intros Hnum; split; [now apply truncate_length|split].
  - intros Hfits; unfold truncate.
    destruct (Z.ltb_spec num (Z.of_nat (String.length s))); [lia|reflexivity].
  - intros Hlong; unfold truncate, slice_to.
    destruct (Z.ltb_spec num (Z.of_nat (String.length s))); [|lia].
    destruct (Z.ltb_spec (num - 3) 0); [lia|].
    destruct (take_is_prefix (Z.to_nat (num - 3)) s) as (dropped & E).
    now exists (take (Z.to_nat (num - 3)) s), dropped.
Qed.

Lemma truncate_fits_witness :
  truncate "Ingenuity 13 LLC v. John Doe, et al. (consolidated)" 35
  = "Ingenuity 13 LLC v. John Doe, et..."
  /\ truncate "Order" 45 = "Order".
Proof.
  split.
  - destruct (truncate_fits
                "Ingenuity 13 LLC v. John Doe, et al. (consolidated)" 35)
      as (_ & _ & Hcut); [lia|].
    destruct Hcut as (kept & dropped & _ & _); [vm_compute; reflexivity|].
    reflexivity.
  - apply (truncate_fits "Order" 45); [lia|vm_compute; discriminate].
Defined.

(** X20.  Truncating twice to the same limit of three or more changes
    nothing more. *)
Theorem truncate_twice (s : string) (num : Z) :
  3 <= num -> truncate (truncate s num) num = truncate s num.
Proof.
  intros Hnum; pose proof (truncate_length s num Hnum) as Hlen.
  unfold truncate at 1.
  destruct (Z.ltb_spec num (Z.of_nat (String.length (truncate s num))));
    [lia|reflexivity].
Qed.

Lemma truncate_twice_witness :
  truncate (truncate "Malibu Media v. Doe" 10) 10
  = truncate "Malibu Media v. Doe" 10.
Proof. apply truncate_twice; lia. Defined.

(** X21.  The status text of a tweet has at most 107 characters besides
    the court, the document number and the link, which go in untruncated:
    the case title takes at most 35 of them and the description at most
    45. *)
Theorem tweet_length (e : entry) :
  (String.length (tweet_text e)
   <= 107 + String.length (info_court (parse_entry e))
      + String.length (info_num (parse_entry e))
      + String.length (info_link (parse_entry e)))%nat.
Proof.
  unfold tweet_text.
  pose proof (truncate_length (info_case (parse_entry e)) 35 ltac:(lia))
    as Hcase.
  pose proof (truncate_length (info_description (parse_entry e)) 45
                              ltac:(lia)) as Hdescr.
  generalize dependent (truncate (info_case (parse_entry e)) 35).
  generalize dependent (truncate (info_description (parse_entry e)) 45).
  generalize (info_court (parse_entry e)) (info_num (parse_entry e))
             (info_link (parse_entry e)) (info_case (parse_entry e))
             (info_description (parse_entry e)).
  intros court num url title descr short_descr Hdescr short_title Htitle.
  rewrite !length_append.
  change (String.length "New #PACER doc in ") with 18%nat.
  change (String.length " (") with 2%nat.
  change (String.length "): #") with 4%nat.
  change (String.length " ") with 1%nat.
  change (String.length ". ") with 2%nat.
  lia.
Qed.

(* ================================================================= *)
(** ** The notifier *)

Section NotifierFacts.

Variable send_email :
  entry -> option string -> option string -> option string -> result unit.
Variable send_tweet :
  entry -> option string -> option string -> option string -> option string
  -> result unit.

Lemma except_Exception_returns (body : result unit * list report) :
  fst (except_Exception body) = Ok tt.
Proof. now destruct body as [[[]|x] reports]. Qed.

(** X22.  The notifier never raises: whatever the two channels answer,
    whichever of them are enabled and whatever the credentials hold, the
    call returns. *)
Theorem notifier_never_raises (creds : list (string * option string))
        (email twitter : bool) (e : entry) :
  fst (make_notifier send_email send_tweet creds email twitter e) = Ok tt.
Proof.
  unfold make_notifier.
  destruct email.
  - pose proof (except_Exception_returns (try_email send_email creds e)) as H1.
    destruct (except_Exception (try_email send_email creds e))
      as [r1 reports1]; simpl in H1; subst r1.
    destruct twitter; [|reflexivity].
    apply except_Exception_returns.
  - destruct twitter; [|reflexivity].
    apply except_Exception_returns.
Qed.

(** X23.  With the credentials the script builds from its command line,
    each enabled channel is called exactly once per notification, with
    its own credentials, e-mail first; a channel that fails prints its
    traceback, and the tweet is attempted whatever became of the e-mail. *)
Theorem channels_are_tried_in_turn
        (e_from e_pass e_to token secret key key_secret : option string)
        (email twitter : bool) (e : entry) :
  snd (make_notifier send_email send_tweet
         (main_creds e_from e_pass e_to token secret key key_secret)
         email twitter e)
  = ((if email
      then CallSendEmail e e_from e_pass e_to
           :: match send_email e e_from e_pass e_to with
              | Ok _ => []
              | Raise x => [PrintTraceback x]
              end
      else [])
     ++ (if twitter
         then CallSendTweet e token secret key key_secret
              :: match send_tweet e token secret key key_secret with
                 | Ok _ => []
                 | Raise x => [PrintTraceback x]
                 end
         else []))%list.
Proof.
  unfold make_notifier, try_email, try_tweet, creds_get, main_creds; simpl.
  destruct email, twitter; simpl;
    try destruct (send_email e e_from e_pass e_to) as [[]|x];
    try destruct (send_tweet e token secret key key_secret) as [[]|y];
    reflexivity.
Qed.

(** X24.  A credentials dictionary without the key [email_account] costs
    the e-mail and nothing else: the notifier prints the KeyError,
    does not call [send_email], and goes on with the tweet as if e-mail
    were off. *)
Theorem missing_credential_skips_the_email
        (creds : list (string * option string)) (twitter : bool) (e : entry) :
  dict_get creds "email_account" = None ->
  snd (make_notifier send_email send_tweet creds true twitter e)
  = PrintTraceback (KeyError "email_account")
    :: snd (make_notifier send_email send_tweet creds false twitter e).
Proof.
  intros Hmissing.
  unfold make_notifier, try_email, creds_get; rewrite Hmissing; simpl.
  reflexivity.
Qed.

End NotifierFacts.

Lemma missing_credential_skips_the_email_witness :
  make_notifier refusing_email accepting_tweet
                (main_creds None None None None None None None)
                false true (ilnd_entry "280638" 1000)
  = (Ok tt, [CallSendTweet (ilnd_entry "280638" 1000) None None None None])
  /\ snd (make_notifier refusing_email accepting_tweet [] true false
                        (ilnd_entry "280638" 1000))
     = [PrintTraceback (KeyError "email_account")].
Proof.
  split; [reflexivity|].
  apply (missing_credential_skips_the_email refusing_email accepting_tweet
                                            [] false).
  reflexivity.
Defined.

Example refused_email_does_not_stop_the_tweet :
  make_notifier refusing_email accepting_tweet
                (main_creds (Some "from") (Some "pass") (Some "to")
                            None None None None)
                true true (ilnd_entry "280638" 1000)
  = (Ok tt,
     [CallSendEmail (ilnd_entry "280638" 1000)
                    (Some "from") (Some "pass") (Some "to");
      PrintTraceback IOError;
      CallSendTweet (ilnd_entry "280638" 1000) None None None None]).
Proof. reflexivity. Qed.

(* ================================================================= *)
(** ** The script *)

(** X25.  The kill switch stops the script before anything happens: when
    the kill-switch file holds a first line of more than two characters,
    and in particular after [set_kill_switch], the script fetches no
    feed, reads and writes no last-seen time, notifies nobody and ends
    cleanly with the disk as it was. *)
Theorem kill_switch_stops_the_script (mktime : struct_time -> Z)
        (feedparser_parse : string -> feed) (d : disk) :
  (forall text,
      killswitch d = Content text ->
      (2 < String.length (readline text))%nat ->
      main mktime feedparser_parse d = (Ok tt, d, []))
  /\ (forall d',
         set_kill_switch d = Ok d' ->
         main mktime feedparser_parse d' = (Ok tt, d', [])).
Proof.
  split.
  - intros text Hfile Hlen; unfold main, kill_switch_set.
    rewrite Hfile; simpl.
    apply Nat.ltb_lt in Hlen; now rewrite Hlen.
  - intros d' Hset; unfold set_kill_switch in Hset.
    destruct (open_w (killswitch d) _) as [f|x] eqn:Hopen; [|discriminate].
    injection Hset as <-.
    unfold open_w in Hopen.
    destruct (killswitch d); try discriminate; injection Hopen as <-;
      reflexivity.
Qed.

Lemma kill_switch_stops_the_script_witness :
  exists d',
    set_kill_switch empty_disk = Ok d'
    /\ main utc_mktime (serving two_filings) d' = (Ok tt, d', []).
Proof.
  eexists; split; [reflexivity|].
  apply (proj2 (kill_switch_stops_the_script utc_mktime (serving two_filings)
                                             empty_disk)).
  reflexivity.
Defined.
